(** * canvas-gauges: the development task runner (gulpfile.js)

    A shallow embedding of the logic-bearing parts of [gulpfile.js]:
    the coverage-report-to-badge pipeline of task [test:e2e], the
    event handlers of the [build], [test:spec] and [test:e2e] tasks,
    and the task table itself.

    JavaScript strings are sequences of UTF-16 code units; they are
    modelled as [list N].  Numbers are IEEE 754 binary64 values,
    modelled with the Standard Library's [spec_float]. *)

From Stdlib Require Import ZArith NArith List String Ascii Bool Lia.
From Stdlib Require Import Floats.SpecFloat.
From stdpp Require Import base option list strings gmap.

Local Open Scope N_scope.

(* ===================================================================== *)
(** * The host language: strings, regular expressions, numbers           *)
(* ===================================================================== *)

Module JS.

(** A JavaScript string: its UTF-16 code units. *)
Definition jsstring := list N.

(** The code units of an ASCII literal of the source. *)
Definition lit (s : string) : jsstring :=
  map N_of_ascii (list_ascii_of_string s).

(** The one code unit of a one-character literal. *)
Definition chr (a : ascii) : N := N_of_ascii a.

Definition ESC : N := 0x1b.
Definition CSI : N := 0x9b.
Definition LF : N := 10.
Definition CR : N := 13.

(** ** Regular expressions

    The fragment of the pattern language the gulpfile uses: character
    classes, sequencing, greedy [?], [*] and [{lo,hi}].  A class is a
    list of inclusive code-unit ranges. *)
Inductive regex : Type :=
| Empty
| Class (ranges : list (N * N))
| Seq (r1 r2 : regex)
| Alt (r1 r2 : regex)
| Star (r : regex).

Definition in_class (ranges : list (N * N)) (c : N) : bool :=
  existsb (fun '(lo, hi) => (lo <=? c) && (c <=? hi)) ranges.

(** [r?]: greedy, the atom is tried before the empty alternative. *)
Definition Opt (r : regex) : regex := Alt r Empty.

(** [r{lo,hi}] with [hi = lo + extra]: greedy. *)
Fixpoint Upto (extra : nat) (r : regex) : regex :=
  match extra with
  | O => Empty
  | S n => Opt (Seq r (Upto n r))
  end.

Fixpoint Rep (lo extra : nat) (r : regex) : regex :=
  match lo with
  | O => Upto extra r
  | S n => Seq r (Rep n extra r)
  end.

(** A continuation receives the input left after the part matched so far
    and answers with the input left after the whole match. *)
Definition cont := jsstring -> option jsstring.

(** The iterations of a greedy [*] whose atom is matched by [step]: one
    more iteration is tried before leaving the loop, and an iteration
    that consumes nothing is rejected.  [n] bounds the iterations left;
    the length of the input is enough. *)
Fixpoint star_loop (step : jsstring -> cont -> option jsstring) (k : cont)
    (n : nat) (s : jsstring) {struct n} : option jsstring :=
  match n with
  | O => k s
  | S n' =>
      match step s (fun s1 => if (length s1 <? length s)%nat
                              then star_loop step k n' s1 else None) with
      | Some e => Some e
      | None => k s
      end
  end.

(** The backtracking matcher of the language specification, in
    continuation-passing style: alternatives are tried in priority
    order and the first one whose continuation succeeds wins. *)
Fixpoint rmatch (r : regex) (s : jsstring) (k : cont) : option jsstring :=
  match r with
  | Empty => k s
  | Class ranges =>
      match s with
      | c :: t => if in_class ranges c then k t else None
      | [] => None
      end
  | Seq r1 r2 => rmatch r1 s (fun s1 => rmatch r2 s1 k)
  | Alt r1 r2 =>
      match rmatch r1 s k with
      | Some e => Some e
      | None => rmatch r2 s k
      end
  | Star r1 => star_loop (rmatch r1) k (length s) s
  end.

(** Whether no class of the pattern accepts the code unit [c]. *)
Fixpoint avoids (c : N) (r : regex) : bool :=
  match r with
  | Empty => true
  | Class ranges => negb (in_class ranges c)
  | Seq r1 r2 | Alt r1 r2 => avoids c r1 && avoids c r2
  | Star r1 => avoids c r1
  end.

(** The input [e] followed by the code unit [c] and the text [b]. *)
Definition with_tail (c : N) (b e : jsstring) : jsstring := e ++ c :: b.

(** Two continuations that do the same, one on an input and the other
    on that input followed by [c] and [b]. *)
Definition related (c : N) (b : jsstring) (k k' : cont) : Prop :=
  forall v, k' (with_tail c b v) = with_tail c b <$> k v.

(** What a matcher anchored at the head of the input returns: the input
    left after the match, or [None]. *)
Definition matcher := jsstring -> option jsstring.

Definition regex_matcher (r : regex) : matcher := fun s => rmatch r s Some.

Fixpoint strip_prefix (p s : jsstring) : option jsstring :=
  match p, s with
  | [], _ => Some s
  | a :: p', b :: s' => if a =? b then strip_prefix p' s' else None
  | _ :: _, [] => None
  end.

(** The matcher of a string separator. *)
Definition string_matcher (sep : jsstring) : matcher := strip_prefix sep.

(** ** [String.prototype.replace] with a global pattern and a
    replacement text without [$] patterns.

    The scan tries the pattern at each position from left to right;
    after a match it resumes at the end of the match, and one position
    further when the match is empty. *)
Fixpoint replace_loop (fuel : nat) (m : matcher) (rep s : jsstring)
  : jsstring :=
  match fuel with
  | O => s
  | S fuel' =>
      match m s with
      | Some rest =>
          if (length rest <? length s)%nat
          then rep ++ replace_loop fuel' m rep rest
          else match s with
               | [] => rep
               | c :: t => rep ++ c :: replace_loop fuel' m rep t
               end
      | None =>
          match s with
          | [] => []
          | c :: t => c :: replace_loop fuel' m rep t
          end
      end
  end.

Definition replace_all (r : regex) (rep s : jsstring) : jsstring :=
  replace_loop (S (length s)) (regex_matcher r) rep s.

(** ** [String.prototype.split] without a limit.

    [seg] holds, reversed, the code units of the segment being built
    (the text between positions [p] and [q] of the specification's
    loop).  A match that ends at [p] is skipped. *)
Fixpoint split_loop (fuel : nat) (m : matcher) (seg s : jsstring)
  : list jsstring :=
  match fuel with
  | O => [rev seg ++ s]
  | S fuel' =>
      match s with
      | [] => [rev seg]
      | c :: t =>
          match m s with
          | None => split_loop fuel' m (c :: seg) t
          | Some rest =>
              if (length seg =? 0)%nat && (length rest =? length s)%nat
              then split_loop fuel' m (c :: seg) t
              else rev seg :: split_loop fuel' m [] rest
          end
      end
  end.

Definition split (m : matcher) (s : jsstring) : list jsstring :=
  match s with
  | [] => match m [] with Some _ => [] | None => [[]] end
  | _ => split_loop (S (length s + length s)) m [] s
  end.

(** ** White space and [String.prototype.trim] *)

(** WhiteSpace and LineTerminator code units. *)
Definition is_white_space (c : N) : bool :=
  in_class [ (0x09, 0x0D); (0x20, 0x20); (0xA0, 0xA0); (0x1680, 0x1680);
             (0x2000, 0x200A); (0x2028, 0x2029); (0x202F, 0x202F);
             (0x205F, 0x205F); (0x3000, 0x3000); (0xFEFF, 0xFEFF) ] c.

Fixpoint trim_start (s : jsstring) : jsstring :=
  match s with
  | c :: t => if is_white_space c then trim_start t else s
  | [] => []
  end.

Definition trim (s : jsstring) : jsstring :=
  rev (trim_start (rev (trim_start s))).

(** ** Numbers and [parseFloat] *)

(** A Number value: an IEEE 754 binary64 float. *)
Definition number := spec_float.
Definition prec : Z := 53.
Definition emax : Z := 1024.

Definition is_digit (c : N) : bool := (48 <=? c) && (c <=? 57).

(** DecimalDigits, longest run: the value accumulated, the number of
    digits read, and the rest of the input. *)
Fixpoint digits (acc : N) (n : nat) (s : jsstring) : N * nat * jsstring :=
  match s with
  | c :: t =>
      if is_digit c then digits (10 * acc + (c - 48)) (S n) t
      else (acc, n, s)
  | [] => (acc, n, s)
  end.

(** ExponentPart, when one is present in full: [e] or [E], an optional
    sign and at least one digit.  Otherwise the exponent is 0 and the
    literal ends before the [e]. *)
Definition exponent_part (s : jsstring) : Z :=
  match s with
  | c :: t =>
      if (c =? chr "e") || (c =? chr "E") then
        let '(neg, u) :=
          match t with
          | d :: r => if d =? chr "-" then (true, r)
                      else if d =? chr "+" then (false, r)
                      else (false, t)
          | [] => (false, t)
          end in
        let '(v, n, _) := digits 0 0 u in
        match n with
        | O => 0%Z
        | S _ => if neg then (- Z.of_N v)%Z else Z.of_N v
        end
      else 0%Z
  | [] => 0%Z
  end.

(** The longest prefix that is a StrUnsignedDecimalLiteral other than
    [Infinity], as a decimal mantissa and a power of ten. *)
Definition unsigned_decimal (s : jsstring) : option (N * Z) :=
  let '(i, ni, s1) := digits 0 0 s in
  match s1 with
  | c :: s2 =>
      if c =? chr "." then
        let '(m, nf, s3) := digits i 0 s2 in
        match ni, nf with
        | O, O => None
        | _, _ => Some (m, (exponent_part s3 - Z.of_nat nf)%Z)
        end
      else
        match ni with
        | O => None
        | S _ => Some (i, exponent_part s1)
        end
  | [] =>
      match ni with
      | O => None
      | S _ => Some (i, 0%Z)
      end
  end.

(** The Number value of [m * 10^e]: the nearest binary64 value, ties to
    even; a zero keeps the sign of the literal. *)
Definition of_decimal (neg : bool) (m : N) (e : Z) : number :=
  match m with
  | N0 => S754_zero neg
  | Npos p =>
      match e with
      | Zneg k =>
          SFdiv prec emax (S754_finite neg p 0)
                (S754_finite false (Pos.pow 10 k) 0)
      | Zpos k => binary_round prec emax neg (p * Pos.pow 10 k) 0
      | Z0 => binary_round prec emax neg p 0
      end
  end.

(** [parseFloat]: leading white space is skipped, the longest prefix
    that is a StrDecimalLiteral is converted, and [NaN] is returned when
    there is none. *)
Definition parseFloat (s : jsstring) : number :=
  let t := trim_start s in
  let '(neg, u) :=
    match t with
    | c :: r => if c =? chr "-" then (true, r)
                else if c =? chr "+" then (false, r)
                else (false, t)
    | [] => (false, t)
    end in
  match strip_prefix (lit "Infinity") u with
  | Some _ => S754_infinity neg
  | None =>
      match unsigned_decimal u with
      | Some (m, e) => of_decimal neg m e
      | None => S754_nan
      end
  end.

(** The Number value of a non-negative integer literal of the source. *)
Definition of_nat_literal (n : N) : number := of_decimal false n 0.

Definition is_nan (x : number) : bool :=
  match x with
  | S754_nan => true
  | _ => false
  end.

(** The [<] operator on Numbers: false when either side is [NaN]. *)
Definition lt (x y : number) : bool := SFltb x y.

(** The [>=] operator on Numbers: false when either side is [NaN]. *)
Definition ge (x y : number) : bool := SFleb y x.

(** ** Completions: a value, or a thrown exception *)

Inductive error : Type :=
| TypeError          (* a property read or a call on a value without it *)
| ReferenceError     (* a [let] binding read before its initialisation *)
| SystemError.       (* a failed file-system call *)

Inductive completion (A : Type) : Type :=
| Normal (a : A)
| Throw (e : error).
Arguments Normal {A} a.
Arguments Throw {A} e.

#[global] Instance completion_ret : MRet completion := @Normal.
#[global] Instance completion_bind : MBind completion :=
  fun A B (f : A -> completion B) (c : completion A) =>
    match c with
    | Normal a => f a
    | Throw e => Throw e
    end.

(** [xs[i].method(...)]: the element, or a [TypeError] from calling a
    method on [undefined] when the index is out of range. *)
Definition at_index {A} (xs : list A) (i : nat) : completion A :=
  match xs !! i with
  | Some x => Normal x
  | None => Throw TypeError
  end.

End JS.

(* ===================================================================== *)
(** * The coverage badge: report text to badge URL (lines 166-187)       *)
(* ===================================================================== *)

Module Coverage.
Import JS.

Definition one (a : ascii) : N * N := (chr a, chr a).
Definition range (a b : ascii) : N * N := (chr a, chr b).

Definition digit : regex := Class [range "0" "9"].

(** The pattern [rx] of terminal escape sequences (lines 166-169):
    an introducer U+001B or U+009B; any number of the punctuation marks
    of the first class; optionally one to four digits followed by any
    number of groups made of a semicolon and up to four digits; and one
    final code unit of the last class. *)
Definition rx : regex :=
  Seq (Class [(ESC, ESC); (CSI, CSI)])
 (Seq (Star (Class [one "["; one "("; one ")"; one "#"; one ";"; one "?"]))
 (Seq (Opt (Seq (Rep 1 3 digit)
                (Star (Seq (Class [one ";"]) (Rep 0 4 digit)))))
      (Class [range "0" "9"; range "A" "O"; one "R"; one "Z"; one "c";
              range "f" "n"; one "q"; one "r"; one "y"; one "="; one ">";
              one "<"]))).

(** The line separator: an optional CR followed by LF. *)
Definition newline : regex := Seq (Opt (Class [(CR, CR)])) (Class [(LF, LF)]).

(** The pattern of the percent sign. *)
Definition percent : regex := Class [one "%"].

(** [fs.readFileSync(path, { encoding: 'utf8' })]: the decoded text of
    the file, or an exception when the file cannot be read.  The file
    system is an input of the model: [None] is an unreadable file. *)
Definition readFileSync (file : option jsstring) : completion jsstring :=
  match file with
  | Some text => Normal text
  | None => Throw SystemError
  end.

(** The chained expression that computes [coverage] (lines 170-178). *)
Definition coverage (file : option jsstring) : completion jsstring :=
  text ← readFileSync file;
  line ← at_index (split (regex_matcher newline)
                         (replace_all rx [] text)) 2;
  seg ← at_index (split (string_matcher (lit ":")) line) 1;
  first ← at_index (split (string_matcher (lit "(")) seg) 0;
  mret (trim first).

(** [color] after lines 179-183. *)
Definition color (coverage : jsstring) : jsstring :=
  if lt (parseFloat coverage) (of_nat_literal 90)
  then lit "red" else lit "green".

(** [url] of lines 185-187. *)
Definition url (coverage color : jsstring) : jsstring :=
  lit "https://img.shields.io/badge/coverage-" ++
  replace_all percent (lit "%25") coverage ++
  lit "-" ++ color ++ lit ".svg".

End Coverage.

(* ===================================================================== *)
(** * The text operations, described directly                            *)
(* ===================================================================== *)

Module Text.
Import JS.

Definition cons_head {A} (c : A) (ls : list (list A)) : list (list A) :=
  match ls with
  | l :: r => (c :: l) :: r
  | [] => [[c]]
  end.

Definition prepend {A} (p : list A) (ls : list (list A)) : list (list A) :=
  match ls with
  | l :: r => (p ++ l) :: r
  | [] => [p]
  end.

(** The segments of [s] between the occurrences of the code unit [c]. *)
Fixpoint fields (c : N) (s : jsstring) : list jsstring :=
  match s with
  | [] => [[]]
  | x :: t => if x =? c then [] :: fields c t else cons_head x (fields c t)
  end.

(** [s] without a final CR. *)
Fixpoint chomp (s : jsstring) : jsstring :=
  match s with
  | [] => []
  | x :: t =>
      match t with
      | [] => if x =? CR then [] else [x]
      | _ :: _ => x :: chomp t
      end
  end.

(** The lines of a text whose lines end with LF or with CR LF: the text
    is cut at every LF, and a CR just before the LF goes with it. *)
Definition lines (s : jsstring) : list jsstring :=
  let fs := fields LF s in
  map chomp (List.removelast fs) ++ [List.last fs []].


(** The text without what the pattern of escape sequences matches. *)
Definition strip (s : jsstring) : jsstring := replace_all Coverage.rx [] s.

(** The percentage of a report as the specification words it: strip
    the escape sequences, take the line at index 2, of it the second
    segment between colons, of that the part before the first opening
    parenthesis, trimmed.  [lines_of] is the way lines are told apart. *)
Definition percentage (lines_of : jsstring -> list jsstring)
    (text : jsstring) : option jsstring :=
  line ← lines_of (strip text) !! 2%nat;
  seg ← fields (chr ":") line !! 1%nat;
  first ← fields (chr "(") seg !! 0%nat;
  Some (trim first).

Definition thrown_unless {A} (o : option A) : completion A :=
  match o with
  | Some a => Normal a
  | None => Throw TypeError
  end.

(** Every percent sign written as [%25], everything else kept. *)
Definition escape_percent (s : jsstring) : jsstring :=
  flat_map (fun c => if c =? chr "%" then lit "%25" else [c]) s.

(** [needle] occurs in [hay]. *)
Definition substring (needle hay : jsstring) : Prop :=
  exists pre post, hay = pre ++ needle ++ post.

(** No code unit of [s] starts an escape sequence. *)
Definition escape_free (s : jsstring) : Prop :=
  Forall (fun c => c <> ESC /\ c <> CSI) s.

End Text.

(* ===================================================================== *)
(** * Handlers as scripts: observable actions, exit and exceptions       *)
(* ===================================================================== *)

Module Node.
Import JS.

(** The value an [http.get] callback receives. *)
Inductive response : Type :=
| ErrorObject (message : jsstring)       (* [instanceof Error] holds *)
| IncomingMessage (body : jsstring).

(** What a handler does to the world, in the order it does it. *)
Inductive action : Type :=
| ConsoleLog (msg : jsstring)
| ConsoleError (message : jsstring)
| GutilLog (err : jsstring)
| SetTimeout (ms : N)
| HttpGet (url : jsstring)
| PipeToFile (path : jsstring)
| KarmaStart
| ServerStop (handle : N)
| TaskDone.

(** How a handler ends: it returns, it calls [process.exit], or an
    exception leaves it. *)
Inductive outcome (A : Type) : Type :=
| Returned (a : A)
| Exit (code : Z)
| Uncaught (e : error).
Arguments Returned {A} a.
Arguments Exit {A} code.
Arguments Uncaught {A} e.

Record script (A : Type) : Type :=
  Script { actions : list action; result : outcome A }.
Arguments Script {A} actions result.
Arguments actions {A} s.
Arguments result {A} s.

#[global] Instance script_ret : MRet script :=
  fun A a => Script [] (Returned a).
#[global] Instance script_bind : MBind script :=
  fun A B (f : A -> script B) (m : script A) =>
    match result m with
    | Returned a => Script (actions m ++ actions (f a)) (result (f a))
    | Exit c => Script (actions m) (Exit c)
    | Uncaught e => Script (actions m) (Uncaught e)
    end.

Definition perform (a : action) : script unit := Script [a] (Returned tt).

(** [process.exit(code)] never returns. *)
Definition process_exit {A} (code : Z) : script A := Script [] (Exit code).

Definition lift {A} (c : completion A) : script A :=
  match c with
  | Normal a => mret a
  | Throw e => Script [] (Uncaught e)
  end.

End Node.

(* ===================================================================== *)
(** * Task [test:e2e] (lines 152-200)                                    *)
(* ===================================================================== *)

Module E2E.
Import JS Node.

(** What the task reads from outside: the truthiness of
    [process.env.TRAVIS] and the coverage report file. *)
Record environment : Type :=
  Environment { TRAVIS : bool; report : option jsstring }.

(** The handler of line 157. *)
Definition error_handler : script unit := process_exit 1.

(** The timer callback of line 160. *)
Definition timer_handler : script unit := process_exit 0.

(** The handler of lines 158-199. *)
Definition end_handler (env : environment) : script unit :=
  (if TRAVIS env then perform (SetTimeout 500) else mret tt);;
  perform (ConsoleLog (lit "Generating badge..."));;
  coverage ← lift (Coverage.coverage (report env));
  let color := Coverage.color coverage in
  let url := Coverage.url coverage color in
  perform (HttpGet url).

(** The callback of lines 189-198. *)
Definition response_handler (response : response) : script unit :=
  match response with
  | ErrorObject message => perform (ConsoleError message);; process_exit 0
  | IncomingMessage _ => mret tt
  end;;
  perform (PipeToFile (lit "test-coverage.svg")).

(** The handler of line 197. *)
Definition finish_handler : script unit := process_exit 0.

(** The events the process can be handed, and the listener each one
    needs. *)
Inductive event : Type :=
| StreamError
| StreamEnd
| TimerFired
| Response (r : response)
| WriteFinished.

Inductive listener : Type :=
| OnError | OnEnd | OnTimer | OnResponse | OnFinish.

#[global] Instance listener_eq_dec : EqDecision listener.
Proof. solve_decision. Defined.

Definition listener_of (ev : event) : listener :=
  match ev with
  | StreamError => OnError
  | StreamEnd => OnEnd
  | TimerFired => OnTimer
  | Response _ => OnResponse
  | WriteFinished => OnFinish
  end.

Definition handler (env : environment) (ev : event) : script unit :=
  match ev with
  | StreamError => error_handler
  | StreamEnd => end_handler env
  | TimerFired => timer_handler
  | Response r => response_handler r
  | WriteFinished => finish_handler
  end.

(** The listener an action leaves behind. *)
Definition installs (a : action) : list listener :=
  match a with
  | SetTimeout _ => [OnTimer]
  | HttpGet _ => [OnResponse]
  | PipeToFile _ => [OnFinish]
  | _ => []
  end.

Inductive status : Type :=
| Running
| Exited (code : Z)
| Crashed (e : error).

Record process : Type :=
  Process { trace : list action; state : status; pending : list listener }.

Fixpoint remove_once (l : listener) (ls : list listener) : list listener :=
  match ls with
  | [] => []
  | x :: xs => if decide (x = l) then xs else x :: remove_once l xs
  end.

(** One turn of the event loop.  A process that has exited or crashed
    handles nothing; every listener of this task fires at most once. *)
Definition deliver (env : environment) (p : process) (ev : event) : process :=
  match state p with
  | Running =>
      if decide (listener_of ev ∈ pending p) then
        let h := handler env ev in
        Process (trace p ++ actions h)
                (match result h with
                 | Returned _ => Running
                 | Exit c => Exited c
                 | Uncaught e => Crashed e
                 end)
                (remove_once (listener_of ev) (pending p)
                 ++ flat_map installs (actions h))
      else p
  | _ => p
  end.

(** The task body (lines 153-158): one log line and two listeners. *)
Definition start : process :=
  Process [ConsoleLog (LF :: lit "Starting end-to-end tests..." ++ [LF])]
          Running [OnError; OnEnd].

Definition run (env : environment) (evs : list event) : process :=
  foldl (deliver env) start evs.

(** The process once the error handler has run before anything else. *)
Definition stopped : process := Process (trace start) (Exited 1) [OnEnd].

(** The actions that belong to badge generation. *)
Definition is_badge_action (a : action) : bool :=
  match a with
  | ConsoleLog msg => bool_decide (msg = lit "Generating badge...")
  | HttpGet _ | PipeToFile _ | ConsoleError _ => true
  | _ => false
  end.

End E2E.

(* ===================================================================== *)
(** * Task [build]: the bundle stream and its error handler (62-82)      *)
(* ===================================================================== *)

Module Bundle.
Import JS Node.

(** What the bundler's output stream emits. *)
Inductive event : Type :=
| Data (chunk : jsstring)
| Error (err : jsstring)
| End.

(** The listeners attached to the bundle stream. *)
Inductive listener : Type :=
| LogAndEnd.        (* the function of lines 70-73 *)

(** The bundle stream with what is attached to it, and the next stage
    ([source('gauge.js')]) as the stream sees it. *)
Record stream : Type := Stream {
  error_listeners : list listener;
  piped : bool;                 (* the [data] and [end] listeners of [pipe] *)
  received : list jsstring;     (* chunks written to the next stage *)
  ended : bool;                 (* the next stage was told the input is over *)
  log : list jsstring;          (* lines written by [gutil.log] *)
  thrown : option jsstring      (* an [error] event nobody listened to *)
}.

Definition bundle : stream := Stream [] false [] false [] None.

(** [.on('error', f)] *)
Definition on_error (f : listener) (s : stream) : stream :=
  Stream (error_listeners s ++ [f]) (piped s) (received s) (ended s)
         (log s) (thrown s).

(** [.pipe(dest)] *)
Definition pipe (s : stream) : stream :=
  Stream (error_listeners s) true (received s) (ended s) (log s) (thrown s).

(** [emit('data', chunk)]: [pipe] forwards the chunk while attached. *)
Definition emit_data (chunk : jsstring) (s : stream) : stream :=
  if piped s
  then Stream (error_listeners s) true (received s ++ [chunk]) (ended s)
              (log s) (thrown s)
  else s.

(** [emit('end')]: [pipe] ends the next stage and detaches itself. *)
Definition emit_end (s : stream) : stream :=
  if piped s
  then Stream (error_listeners s) false (received s) true (log s) (thrown s)
  else s.

(** The body of a listener, called with the error. *)
Definition call (f : listener) (err : jsstring) (s : stream) : stream :=
  match f with
  | LogAndEnd =>
      emit_end (Stream (error_listeners s) (piped s) (received s) (ended s)
                       (log s ++ [err]) (thrown s))
  end.

(** [emit('error', err)]: with no listener the emitter throws the error;
    otherwise every listener is called in turn. *)
Definition emit_error (err : jsstring) (s : stream) : stream :=
  match error_listeners s with
  | [] => Stream [] (piped s) (received s) (ended s) (log s) (Some err)
  | fs => foldl (fun s f => call f err s) s fs
  end.

Definition emit (s : stream) (ev : event) : stream :=
  match thrown s with
  | Some _ => s
  | None =>
      match ev with
      | Data chunk => emit_data chunk s
      | Error err => emit_error err s
      | End => emit_end s
      end
  end.

(** The stream of lines 64-74. *)
Definition pipeline : stream := pipe (on_error LogAndEnd bundle).

Definition run (evs : list event) : stream := foldl emit pipeline evs.

(** The chunks emitted before the first event that is not a chunk. *)
Fixpoint leading_data (evs : list event) : list jsstring :=
  match evs with
  | Data chunk :: rest => chunk :: leading_data rest
  | _ => []
  end.

(** The errors among the events, in order. *)
Fixpoint errors (evs : list event) : list jsstring :=
  match evs with
  | [] => []
  | Error err :: rest => err :: errors rest
  | _ :: rest => errors rest
  end.

(** The stream of lines 64-74 while the bundler is emitting chunks, and
    once the next stage has been told that the input is over. *)
Definition flowing (got : list jsstring) : stream :=
  Stream [LogAndEnd] true got false [] None.
Definition closed (got logged : list jsstring) : stream :=
  Stream [LogAndEnd] false got true logged None.

End Bundle.

(* ===================================================================== *)
(** * Task [test:spec] (lines 124-134)                                   *)
(* ===================================================================== *)

Module SpecRunner.
Import JS Node.

(** What [start()] may have returned into [server]. *)
Inductive value : Type :=
| Undefined
| ServerHandle (handle : N)      (* an object with a [stop] method *)
| OtherObject.                   (* a truthy value without one *)

(** The [let] binding [server]: not yet initialised while the
    initialiser runs. *)
Inductive binding : Type :=
| Uninitialised
| Bound (v : value).

(** The completion callback of lines 130-133.  Its argument, the exit
    code of the test run, is not looked at. *)
Definition on_complete (server : binding) (exit_code : Z) : script unit :=
  match server with
  | Uninitialised => lift (Throw ReferenceError)
  | Bound Undefined => mret tt
  | Bound (ServerHandle h) => perform (ServerStop h)
  | Bound OtherObject => lift (Throw TypeError)
  end;;
  perform TaskDone.

(** The task: the body, then the completion callback once the run is
    over and [server] holds what [start()] returned. *)
Definition test_spec (started : value) (exit_code : Z) : script unit :=
  perform (ConsoleLog (lit "Starting unit tests..."));;
  perform KarmaStart;;
  on_complete (Bound started) exit_code.

End SpecRunner.

(* ===================================================================== *)
(** * The task table (lines 32-209)                                      *)
(* ===================================================================== *)

Module Tasks.

Local Open Scope string_scope.
Local Open Scope list_scope.

(** What a task's function does, named after the tool it drives. *)
Inductive body : Type :=
| Usage                       (* [usage(gulp)] *)
| Rimraf                      (* the four chained deletions *)
| Esdoc
| Browserify                  (* the bundle pipeline *)
| WatchLib                    (* [gulp.watch('lib/**/*.js', ...)] *)
| Gzip
| Eslint
| Karma                       (* {!SpecRunner.test_spec} *)
| Wdio                        (* {!E2E.start} *)
| Start (name : string).      (* [gulp.start(name)] *)

Record task : Type := Task { dep : list string; fn : option body }.

(** [gulp.task(name, dep, fn)]: the table is keyed by name, a second
    registration of a name replaces the first. *)
Definition gulp_task (name : string) (dep : list string) (fn : option body)
    (tasks : gmap string task) : gmap string task :=
  <[name := Task dep fn]> tasks.

(** The registrations of the gulpfile, in source order. *)
Definition registrations : list (string * list string * option body) :=
  [ ("help", [], Some Usage);
    ("clean", [], Some Rimraf);
    ("doc", [], Some Esdoc);
    ("build", ["clean"], Some Browserify);
    ("watch", ["build"], Some WatchLib);
    ("gzip", ["build"], Some Gzip);
    ("lint", [], Some Eslint);
    ("test:spec", ["lint"], Some Karma);
    ("test:e2e", [], Some Wdio);
    ("test", ["test:spec"], Some (Start "test:e2e"));
    ("default", ["help"], None) ].

Definition gulpfile : gmap string task :=
  foldl (fun tasks '(name, dep, fn) => gulp_task name dep fn tasks)
        ∅ registrations.

(** The transitive prerequisites of a task, prerequisites of
    prerequisites first. *)
Fixpoint prerequisites (fuel : nat) (tasks : gmap string task)
    (name : string) : list string :=
  match fuel with
  | O => []
  | S fuel' =>
      match tasks !! name with
      | None => []
      | Some t =>
          flat_map (fun d => prerequisites fuel' tasks d ++ [d]) (dep t)
      end
  end.

(** What the scheduler reports. *)
Inductive report : Type :=
| Started (name : string)
| Finished (name : string)
| Failed (name : string).

Record run_state : Type :=
  RunState { log : list report; finished : list string; ok : bool }.

(** Modelled from the spec: the Task Graph Scheduler of section 4.1 is
    gulp's own, which the gulpfile only calls ([gulp.task],
    [gulp.start]).  Running a task runs every prerequisite that has not
    run yet, each completing before its dependent starts, then the
    task's own function; a task whose function is [Start name] chains to
    that task once its own prerequisites have finished.  A failure
    stops the run: nothing that depends on the failed task starts.
    [fails] tells which task functions fail. *)
Fixpoint run_task (fuel : nat) (tasks : gmap string task)
    (fails : string -> bool) (name : string) (st : run_state) : run_state :=
  match fuel with
  | O => RunState (log st) (finished st) false
  | S fuel' =>
      if negb (ok st) then st
      else if bool_decide (name ∈ finished st) then st
      else
        match tasks !! name with
        | None => RunState (log st) (finished st) false
        | Some t =>
            let st1 :=
              foldl (fun s d => run_task fuel' tasks fails d s) st (dep t) in
            if negb (ok st1) then st1
            else
              let st2 :=
                RunState (log st1 ++ [Started name]) (finished st1) true in
              if fails name
              then RunState (log st2 ++ [Failed name]) (finished st2) false
              else
                let st3 :=
                  match fn t with
                  | Some (Start next) => run_task fuel' tasks fails next st2
                  | _ => st2
                  end in
                if negb (ok st3) then st3
                else RunState (log st3 ++ [Finished name])
                              (finished st3 ++ [name]) true
        end
  end.

(** [gulp <name>] on the gulpfile's table. *)
Definition gulp (fails : string -> bool) (name : string) : run_state :=
  run_task (size gulpfile) gulpfile fails name (RunState [] [] true).

End Tasks.

(* ===================================================================== *)
(** * Task [clean] (lines 39-44) and the files the tasks write           *)
(* ===================================================================== *)

Module Clean.

Local Open Scope string_scope.

(** [rimraf(path, cb)]: the path is removed and [cb] is called without
    an error, also when nothing was there; when the removal of an
    existing file is refused ([denied], by the operating system) the
    file stays and [cb] is called with the error.  The files of the
    project root are a set of names. *)
Definition rimraf {A} (denied : string -> bool) (path : string)
    (cb : option string -> gset string -> A) (files : gset string) : A :=
  if denied path && bool_decide (path ∈ files)
  then cb (Some path) files
  else cb None (files ∖ {[path]}).

(** The function of task [clean]: four removals, each started by the
    callback of the one before, which drops what it is called with;
    the last one is handed [done] itself. *)
Definition clean {A} (denied : string -> bool)
    (done : option string -> gset string -> A) : gset string -> A :=
  rimraf denied "gauge.js" (fun _ =>
  rimraf denied "gauge.min.js" (fun _ =>
  rimraf denied "gauge.min.js.map" (fun _ =>
  rimraf denied "gauge.min.js.gz" done))).

(** The names [clean] removes. *)
Definition targets : gset string :=
  {[ "gauge.js"; "gauge.min.js"; "gauge.min.js.map"; "gauge.min.js.gz" ]}.

(** The names that go through the stages of task [build] after the
    bundle (lines 74-81): [source] names the bundle, [rename] renames
    it, [sourcemaps.write('.')] adds the map beside each file, and
    [gulp.dest('.')] writes them.  Minification may fail, and then
    nothing is written. *)
Definition source (name : string) : list string := [name].
Definition rename (name : string) (paths : list string) : list string :=
  map (fun _ => name) paths.
Definition sourcemaps_write (paths : list string) : list string :=
  flat_map (fun p => [p; p +:+ ".map"]) paths.
Definition dest (paths : list string) (files : gset string) : gset string :=
  files ∪ list_to_set paths.

Definition build (minified : bool) (files : gset string) : gset string :=
  if minified
  then dest (sourcemaps_write (rename "gauge.min.js" (source "gauge.js")))
            files
  else files.

(** Task [gzip] (lines 93-97): [gulp.src] finds the minified file or
    nothing, [gzip] appends [.gz] to the name. *)
Definition src (name : string) (files : gset string) : list string :=
  if bool_decide (name ∈ files) then [name] else [].
Definition gzip_plugin (paths : list string) : list string :=
  map (fun p => p +:+ ".gz") paths.
Definition gzip (files : gset string) : gset string :=
  dest (gzip_plugin (src "gauge.min.js" files)) files.

End Clean.

(* ===================================================================== *)
(** * What a trace of task [test:e2e] holds                              *)
(* ===================================================================== *)

Module Trace.
Import JS Node.

(** The URLs requested, in order. *)
Definition requests (tr : list action) : list jsstring :=
  flat_map (fun a => match a with HttpGet url => [url] | _ => [] end) tr.

(** The files a response was piped to, in order. *)
Definition writes (tr : list action) : list jsstring :=
  flat_map (fun a => match a with PipeToFile path => [path] | _ => [] end) tr.

(** How many times a listener is registered. *)
Definition registered (l : E2E.listener) (ls : list E2E.listener) : nat :=
  length (filter (fun x => x = l) ls).

(** What every process of the task keeps: the [end] listener and a
    request never go together, and a pending response or a write
    needs a request. *)
Definition counted (p : E2E.process) : Prop :=
  (registered E2E.OnEnd (E2E.pending p) + length (requests (E2E.trace p))
     <= 1)%nat /\
  (registered E2E.OnResponse (E2E.pending p) + length (writes (E2E.trace p))
     <= length (requests (E2E.trace p)))%nat.

End Trace.

(* ===================================================================== *)
(** * Control sequences as terminals define them                         *)
(* ===================================================================== *)

Module Escape.
Import JS.
Local Open Scope list_scope.

(** A run of at most [n] decimal digits. *)
Definition digit_run (n : nat) (d : jsstring) : Prop :=
  Forall (fun c => is_digit c = true) d /\ (length d <= n)%nat.

(** The parameters after the first, a semicolon before each. *)
Definition groups_text (groups : list jsstring) : jsstring :=
  flat_map (fun g => chr ";" :: g) groups.

(** A control sequence: ESC and an opening bracket, a first parameter,
    further parameters, and a final code unit. *)
Definition control_sequence (first : jsstring) (groups : list jsstring)
    (final : N) : jsstring :=
  ESC :: chr "[" :: first ++ groups_text groups ++ [final].

(** The two classes of [rx] around the parameters. *)
Definition marks : list (N * N) :=
  [Coverage.one "["; Coverage.one "("; Coverage.one ")"; Coverage.one "#";
   Coverage.one ";"; Coverage.one "?"].
Definition finals : list (N * N) :=
  [Coverage.range "0" "9"; Coverage.range "A" "O"; Coverage.one "R";
   Coverage.one "Z"; Coverage.one "c"; Coverage.range "f" "n";
   Coverage.one "q"; Coverage.one "r"; Coverage.one "y"; Coverage.one "=";
   Coverage.one ">"; Coverage.one "<"].

(** The group of a further parameter in [rx]: a semicolon and up to
    four digits. *)
Definition group : regex :=
  Seq (Class [Coverage.one ";"]) (Rep 0 4 Coverage.digit).

End Escape.

(* ===================================================================== *)
(** * Percentages as the report prints them                              *)
(* ===================================================================== *)

Module Percent.
Import JS.
Local Open Scope list_scope.

(** The text of a list of decimal digits. *)
Definition digits_text (ds : list N) : jsstring := map (N.add 48) ds.

(** A percentage token: the digits of the whole part, the digits after
    the decimal point when there are any, and the percent sign. *)
Definition token (whole frac : list N) : jsstring :=
  digits_text whole
  ++ match frac with
     | [] => []
     | _ :: _ => chr "." :: digits_text frac
     end
  ++ [chr "%"].

(** The number a list of digits writes. *)
Definition value (ds : list N) : N :=
  fold_left (fun acc d => 10 * acc + d) ds 0.

Definition ten : list N := [0; 1; 2; 3; 4; 5; 6; 7; 8; 9].

(** Every list of [n] digits. *)
Fixpoint digit_lists (n : nat) : list (list N) :=
  match n with
  | O => [[]]
  | S m => flat_map (fun d => map (cons d) (digit_lists m)) ten
  end.

(** Whether the color of a token is red below 90 and green from 90. *)
Definition classified (whole frac : list N) : bool :=
  bool_decide (Coverage.color (token whole frac)
               = if N.ltb (value whole) 90 then lit "red" else lit "green").

End Percent.

(* ===================================================================== *)
(** * Sample inputs                                                      *)
(* ===================================================================== *)

Module Samples.
Import JS.
Local Open Scope list_scope.

(** The summary line of the specification's example. *)
Definition summary_line : jsstring :=
  lit "Statements   : 92.5% ( 370/400 )".

(** A report in the layout of a text summary: an empty line, a ruler in
    bold that ends with CR LF, then the summary lines. *)
Definition report : jsstring :=
  [LF] ++ ESC :: lit "[1m" ++ lit "=========== Coverage summary ==========="
  ++ ESC :: lit "[0m" ++ [CR; LF]
  ++ summary_line ++ [LF]
  ++ lit "Branches     : 85.0% ( 340/400 )" ++ [LF].


(** A third line with its colon and without any parenthesis. *)
Definition report_without_parenthesis : jsstring :=
  [LF] ++ lit "=========== Coverage summary ===========" ++ [LF]
  ++ lit "Statements   : 92.5%" ++ [LF].

(** A report of two lines. *)
Definition short_report : jsstring :=
  lit "=========== Coverage summary ===========" ++ [LF].

(** A percentage token that starts with no number. *)
Definition unparsed : jsstring := lit "n/a".

(** An environment with the sample report, on the CI service. *)
Definition ci_environment : E2E.environment :=
  E2E.Environment true (Some report).

(** A task outcome in which only the end-to-end task fails. *)
Definition only_e2e_fails (name : string) : bool :=
  String.eqb name "test:e2e".

End Samples.

(* ===================================================================== *)
(** * Text with terminal escape sequences in it                          *)
(* ===================================================================== *)

Module Markup.
Import JS.
Local Open Scope list_scope.












End Markup.

(* ===================================================================== *)
(** * Properties of the host-language operations                         *)
(* ===================================================================== *)

Import JS Coverage Text Samples.
Local Open Scope list_scope.

Lemma in_class_nil c : in_class [] c = false.
Proof. reflexivity. Qed.

Lemma in_class_cons lo hi rs c :
  in_class ((lo, hi) :: rs) c = ((lo <=? c) && (c <=? hi)) || in_class rs c.
Proof. reflexivity. Qed.

Lemma in_class_single a c : in_class [(a, a)] c = (c =? a).
Proof.
  rewrite in_class_cons, in_class_nil, orb_false_r.
  destruct (N.eqb_spec c a) as [->|Hne].
  - rewrite N.leb_refl. reflexivity.
  - destruct (N.leb_spec a c), (N.leb_spec c a); simpl; try reflexivity. lia.
Qed.

Lemma replace_loop_fuel m rep f1 : forall f2 s,
  (length s < f1)%nat -> (length s < f2)%nat ->
  replace_loop f1 m rep s = replace_loop f2 m rep s.
Proof.
  induction f1 as [|f1 IH]; intros f2 s H1 H2; [lia|].
  destruct f2 as [|f2]; [lia|]. simpl.
  destruct (m s) as [rest|].
  - destruct (Nat.ltb_spec (length rest) (length s)).
    + f_equal. apply IH; lia.
    + destruct s as [|c t]; [reflexivity|]. simpl in *.
      do 2 f_equal. apply IH; lia.
  - destruct s as [|c t]; [reflexivity|]. simpl in *. f_equal. apply IH; lia.
Qed.

Lemma string_matcher_one c s :
  string_matcher [c] s =
  match s with x :: t => if x =? c then Some t else None | [] => None end.
Proof.
  destruct s as [|x t]; [reflexivity|]. unfold string_matcher. simpl.
  rewrite (N.eqb_sym c x). reflexivity.
Qed.


Lemma fields_nonempty c s : fields c s <> [].
Proof. destruct s as [|x t]; simpl; [easy|]. destruct (x =? c); [easy|]. destruct (fields c t); easy. Qed.

Lemma prepend_cons_head {A} (p : list A) (x : A) (ls : list (list A)) : ls <> [] ->
  prepend (p ++ [x]) ls = prepend p (cons_head x ls).
Proof. destruct ls as [|l r]; [easy|]. intros _. simpl. rewrite <- app_assoc. reflexivity. Qed.

Lemma split_loop_char c : forall s fuel seg,
  (length s < fuel)%nat ->
  split_loop fuel (string_matcher [c]) seg s = prepend (rev seg) (fields c s).
Proof.
  induction s as [|x t IH]; intros fuel seg Hf; (destruct fuel as [|fuel]; [simpl in Hf; lia|]).
  - simpl. rewrite app_nil_r. reflexivity.
  - simpl in Hf. cbn [split_loop fields]. rewrite string_matcher_one.
    destruct (x =? c).
    + replace (length t =? length (x :: t))%nat with false
        by (symmetry; apply Nat.eqb_neq; simpl; lia).
      rewrite andb_false_r. rewrite IH by lia. simpl. rewrite app_nil_r.
      f_equal. destruct (fields c t) eqn:E; [by apply fields_nonempty in E|]. reflexivity.
    + rewrite IH by lia. simpl. apply prepend_cons_head, fields_nonempty.
Qed.

Lemma split_char c s : split (string_matcher [c]) s = fields c s.
Proof.
  destruct s as [|x t]; [reflexivity|]. unfold split.
  rewrite split_loop_char by (simpl; lia). simpl.
  destruct (x =? c); [reflexivity|]. destruct (fields c t) eqn:E; [by apply fields_nonempty in E|]. reflexivity.
Qed.

Lemma newline_match s :
  regex_matcher newline s =
  match s with
  | x :: t =>
      if x =? LF then Some t
      else if x =? CR then
        match t with
        | y :: t' => if y =? LF then Some t' else None
        | [] => None
        end
      else None
  | [] => None
  end.
Proof.
  unfold regex_matcher, newline, Opt. cbn [rmatch].
  destruct s as [|x t]; [reflexivity|].
  rewrite !in_class_single.
  destruct (N.eqb_spec x CR) as [->|Hx].
  - change (CR =? LF) with false. destruct t as [|y t']; [reflexivity|].
    rewrite in_class_single. destruct (y =? LF); reflexivity.
  - destruct (x =? LF); reflexivity.
Qed.

Lemma lines_nonempty s : lines s <> [].
Proof. unfold lines. destruct (map chomp _); easy. Qed.

Lemma lines_fields_cons f fs :
  fs <> [] ->
  map chomp (List.removelast (f :: fs)) ++ [List.last (f :: fs) []] =
  chomp f :: (map chomp (List.removelast fs) ++ [List.last fs []]).
Proof. destruct fs; [easy|]. reflexivity. Qed.

Lemma lines_LF t : lines (LF :: t) = [] :: lines t.
Proof.
  unfold lines. cbn [fields]. change (LF =? LF) with true. cbv iota.
  rewrite lines_fields_cons by apply fields_nonempty. reflexivity.
Qed.

Lemma lines_CRLF t : lines (CR :: LF :: t) = [] :: lines t.
Proof.
  unfold lines. cbn [fields]. change (CR =? LF) with false. change (LF =? LF) with true.
  cbv iota. cbn [cons_head].
  rewrite lines_fields_cons by apply fields_nonempty. reflexivity.
Qed.

Lemma chomp_cons x f : (x = CR -> f <> []) -> chomp (x :: f) = x :: chomp f.
Proof.
  destruct f as [|y f]; [|reflexivity]. intros H. simpl.
  destruct (N.eqb_spec x CR) as [->|]; [by destruct H|reflexivity].
Qed.

Lemma lines_other x t :
  x <> LF -> (x = CR -> forall t', t <> LF :: t') ->
  lines (x :: t) = cons_head x (lines t).
Proof.
  intros HLF HCR. unfold lines. cbn [fields].
  destruct (N.eqb_spec x LF) as [|_]; [done|].
  destruct (fields LF t) as [|f fs] eqn:E; [by apply fields_nonempty in E|].
  cbn [cons_head]. destruct fs as [|g fs].
  - reflexivity.
  - rewrite (lines_fields_cons (x :: f)), (lines_fields_cons f) by easy.
    cbn [cons_head]. f_equal.
    apply chomp_cons. intros -> ->. 
    destruct t as [|y t]; [discriminate E|]. simpl in E.
    destruct (N.eqb_spec y LF) as [->|]; [by eapply HCR|].
    destruct (fields LF t); discriminate E.
Qed.

Lemma split_loop_newline : forall fuel s seg,
  (length s < fuel)%nat ->
  split_loop fuel (regex_matcher newline) seg s = prepend (rev seg) (lines s).
Proof.
  induction fuel as [|fuel IH]; intros s seg Hf; [lia|].
  destruct s as [|x t].
  - simpl. rewrite app_nil_r. reflexivity.
  - simpl in Hf. cbn [split_loop]. rewrite newline_match.
    destruct (N.eqb_spec x LF) as [->|HLF].
    + replace (length t =? length (LF :: t))%nat with false
        by (symmetry; apply Nat.eqb_neq; simpl; lia).
      rewrite andb_false_r, IH by lia. rewrite lines_LF. simpl. rewrite app_nil_r.
      f_equal. destruct (lines t) eqn:E; [by apply lines_nonempty in E|]. reflexivity.
    + destruct (N.eqb_spec x CR) as [->|HCR].
      * destruct t as [|y t'].
        -- rewrite IH by (simpl; lia). rewrite lines_other; [|done|intros _ t'; done].
           cbn [rev]. apply prepend_cons_head, lines_nonempty.
        -- destruct (N.eqb_spec y LF) as [->|Hy].
           ++ replace (length t' =? length (CR :: LF :: t'))%nat with false
                by (symmetry; apply Nat.eqb_neq; simpl; lia).
              rewrite andb_false_r, IH by (simpl in *; lia). rewrite lines_CRLF.
              simpl. rewrite app_nil_r.
              f_equal. destruct (lines t') eqn:E; [by apply lines_nonempty in E|]. reflexivity.
           ++ rewrite IH by (simpl in *; lia).
              rewrite (lines_other CR); [|done|intros _ t'' [= ? ?]; done].
              cbn [rev]. apply prepend_cons_head, lines_nonempty.
      * rewrite IH by lia. rewrite lines_other; [|done|done].
        cbn [rev]. apply prepend_cons_head, lines_nonempty.
Qed.

Lemma split_newline s : split (regex_matcher newline) s = lines s.
Proof.
  destruct s as [|x t]; [reflexivity|]. unfold split.
  rewrite split_loop_newline by (simpl; lia). simpl.
  destruct (lines (x :: t)) eqn:E; [by apply lines_nonempty in E|]. reflexivity.
Qed.

Lemma percent_match s :
  regex_matcher percent s =
  match s with x :: t => if x =? chr "%" then Some t else None | [] => None end.
Proof.
  destruct s as [|x t]; [reflexivity|]. unfold regex_matcher, percent, one.
  cbn [rmatch]. rewrite in_class_single. reflexivity.
Qed.

Lemma replace_loop_percent rep : forall s fuel,
  (length s < fuel)%nat ->
  replace_loop fuel (regex_matcher percent) rep s =
  flat_map (fun c => if c =? chr "%" then rep else [c]) s.
Proof.
  induction s as [|x t IH]; intros fuel Hf; (destruct fuel as [|fuel]; [simpl in Hf; lia|]).
  - reflexivity.
  - simpl in Hf. cbn [replace_loop flat_map]. rewrite percent_match.
    destruct (x =? chr "%").
    + replace (length t <? length (x :: t))%nat with true
        by (symmetry; apply Nat.ltb_lt; simpl; lia).
      rewrite IH by lia. reflexivity.
    + rewrite IH by lia. reflexivity.
Qed.

Lemma replace_percent s :
  replace_all percent (lit "%25") s = escape_percent s.
Proof. apply replace_loop_percent. lia. Qed.

(** ** The matcher hands its continuation a suffix of its input *)

Lemma rmatch_suffix r : forall s k e,
  rmatch r s k = Some e -> exists s', s' `suffix_of` s /\ k s' = Some e.
Proof.
  induction r as [|ranges|r1 IH1 r2 IH2|r1 IH1 r2 IH2|r1 IH1]; intros s k e H.
  - exists s. split; [done|exact H].
  - destruct s as [|c t]; [discriminate|]. simpl in H.
    destruct (in_class ranges c); [|discriminate].
    exists t. split; [by apply suffix_cons_r|exact H].
  - simpl in H. apply IH1 in H as (s1 & Hs1 & H). apply IH2 in H as (s2 & Hs2 & H).
    exists s2. split; [by etrans|exact H].
  - simpl in H. destruct (rmatch r1 s k) eqn:E.
    + inversion H; subst. by apply IH1 in E.
    + by apply IH2 in H.
  - cbn [rmatch] in H. revert H. generalize (length s) as n. intros n. revert s.
    induction n as [|n IHn]; intros s H.
    + exists s. split; [done|exact H].
    + simpl in H. 
      destruct (rmatch r1 s _) eqn:E.
      * inversion H; subst. apply IH1 in E as (s1 & Hs1 & E).
        destruct (length s1 <? length s)%nat; [|discriminate].
        apply IHn in E as (s2 & Hs2 & E). exists s2. split; [by etrans|exact E].
      * exists s. split; [done|exact H].
Qed.

Lemma rmatch_none r : forall s k, (forall s', k s' = None) -> rmatch r s k = None.
Proof.
  induction r as [|ranges|r1 IH1 r2 IH2|r1 IH1 r2 IH2|r1 IH1]; intros s k Hk; cbn [rmatch].
  - apply Hk.
  - destruct s as [|c t]; [reflexivity|]. destruct (in_class ranges c); [apply Hk|reflexivity].
  - apply IH1. intros s'. by apply IH2.
  - rewrite IH1 by done. by apply IH2.
  - generalize (length s) as n. intros n. revert s.
    induction n as [|n IHn]; intros s; cbn [star_loop]; [apply Hk|].
    rewrite IH1; [apply Hk|]. intros s'. destruct (length s' <? length s)%nat; [apply IHn|reflexivity].
Qed.

Section Locality.
Variables (c0 : N) (b : jsstring).

Lemma length_with_tail v :
  length (with_tail c0 b v) = (length v + S (length b))%nat.
Proof. unfold with_tail. rewrite length_app. reflexivity. Qed.

Lemma star_loop_local (step : jsstring -> cont -> option jsstring) :
  (forall u k k', related c0 b k k' ->
     step (with_tail c0 b u) k' = with_tail c0 b <$> step u k) ->
  (forall s k, (forall s', k s' = None) -> step s k = None) ->
  forall k k', related c0 b k k' ->
  forall n' n u, (length (with_tail c0 b u) <= n')%nat -> (length u <= n)%nat ->
    star_loop step k' n' (with_tail c0 b u) =
    with_tail c0 b <$> star_loop step k n u.
Proof.
  intros Hstep Hnone k k' Hk.
  induction n' as [|n' IHn']; intros n u Hn' Hn.
  - rewrite length_with_tail in Hn'. lia.
  - cbn [star_loop]. destruct n as [|n].
    + destruct u; [|simpl in Hn; lia]. cbn [star_loop].
      rewrite (Hstep [] (fun _ => None)).
      * rewrite Hnone by done. simpl. apply (Hk []).
      * intros v. rewrite length_with_tail.
        change (length (with_tail c0 b [])) with (S (length b)).
        destruct (Nat.ltb_spec (length v + S (length b)) (S (length b)));
          [lia|reflexivity].
    + cbn [star_loop].
      rewrite (Hstep u (fun s1 => if (length s1 <? length u)%nat
                                  then star_loop step k n s1 else None)).
      * destruct (step u _); [reflexivity|]. apply Hk.
      * intros v. rewrite !length_with_tail.
        destruct (Nat.ltb_spec (length v) (length u)).
        -- destruct (Nat.ltb_spec (length v + S (length b))
                                  (length u + S (length b))); [|lia].
           apply IHn'; [|lia]. rewrite length_with_tail in *. lia.
        -- destruct (Nat.ltb_spec (length v + S (length b))
                                  (length u + S (length b))); [lia|].
           reflexivity.
Qed.

Lemma rmatch_local r : avoids c0 r = true ->
  forall u k k', related c0 b k k' ->
    rmatch r (with_tail c0 b u) k' = with_tail c0 b <$> rmatch r u k.
Proof.
  induction r as [|ranges|r1 IH1 r2 IH2|r1 IH1 r2 IH2|r1 IH1];
    cbn [avoids rmatch]; intros Hav u k k' Hk.
  - apply Hk.
  - destruct u as [|c t]; simpl.
    + apply negb_true_iff in Hav. rewrite Hav. reflexivity.
    + destruct (in_class ranges c); [apply (Hk t)|reflexivity].
  - apply andb_true_iff in Hav as [H1 H2].
    apply IH1; [done|]. intros v. by apply IH2.
  - apply andb_true_iff in Hav as [H1 H2].
    rewrite (IH1 H1 u k k' Hk). destruct (rmatch r1 u k); [reflexivity|].
    by apply IH2.
  - rewrite length_with_tail.
    apply star_loop_local; try done.
    + intros; by apply IH1.
    + intros; by apply rmatch_none.
    + rewrite length_with_tail. lia.
Qed.

End Locality.


Lemma rx_match_tail c0 b u :
  avoids c0 rx = true ->
  regex_matcher rx (u ++ c0 :: b) = with_tail c0 b <$> regex_matcher rx u.
Proof.
  intros H. unfold regex_matcher.
  apply (rmatch_local c0 b rx H u); intros v; reflexivity.
Qed.

Lemma rx_match_suffix s rest : regex_matcher rx s = Some rest -> rest `suffix_of` s.
Proof.
  intros H. apply rmatch_suffix in H as (s' & Hs & H). by inversion H; subst.
Qed.

Lemma rx_match_nil : regex_matcher rx [] = None.
Proof. reflexivity. Qed.

Lemma rx_match_other c t : c <> ESC -> c <> CSI -> regex_matcher rx (c :: t) = None.
Proof.
  intros H1 H2. unfold regex_matcher, rx. cbn [rmatch].
  rewrite in_class_cons, in_class_single.
  destruct (N.eqb_spec c CSI); [done|]. rewrite orb_false_r.
  destruct (N.leb_spec ESC c), (N.leb_spec c ESC); try reflexivity. lia.
Qed.

Section ReplaceTail.
Variables (m : matcher) (c0 : N) (b : jsstring).
Hypothesis Hm : forall u, m (u ++ c0 :: b) = with_tail c0 b <$> m u.

Lemma replace_loop_tail : forall fuel u,
  (length (u ++ c0 :: b) < fuel)%nat ->
  replace_loop fuel m [] (u ++ c0 :: b) =
  replace_loop (S (length u)) m [] u ++ c0 :: replace_loop (S (length b)) m [] b.
Proof.
  induction fuel as [|fuel IH]; intros u Hf; [lia|].
  rewrite length_app in Hf. cbn [length] in Hf.
  assert (Hb : replace_loop fuel m [] b = replace_loop (S (length b)) m [] b)
    by (apply replace_loop_fuel; lia).
  assert (Hrec : forall v, (length v < length u)%nat ->
            replace_loop fuel m [] (v ++ c0 :: b) =
            replace_loop (length u) m [] v ++ c0 :: replace_loop (S (length b)) m [] b).
  { intros v Hv. rewrite IH by (rewrite length_app; cbn [length]; lia).
    f_equal. apply replace_loop_fuel; lia. }
  set (Rb := replace_loop (S (length b)) m [] b) in *.
  cbn [replace_loop]. rewrite Hm.
destruct (m u) as [rest|]; cbn [fmap option_fmap option_map]; unfold with_tail.
  - rewrite !length_app. cbn [length].
    destruct (Nat.ltb_spec (length rest) (length u)).
    + destruct (Nat.ltb_spec (length rest + S (length b)) (length u + S (length b))); [|lia].
      cbn [app]. by apply Hrec.
    + destruct (Nat.ltb_spec (length rest + S (length b)) (length u + S (length b))); [lia|].
      destruct u as [|c t]; cbn [app].
      * by rewrite Hb.
      * f_equal. apply Hrec. cbn [length]. lia.
  - destruct u as [|c t]; cbn [app].
    + by rewrite Hb.
    + f_equal. apply Hrec. cbn [length]. lia.
Qed.
End ReplaceTail.

Lemma strip_tail c0 u b :
  avoids c0 rx = true -> strip (u ++ c0 :: b) = strip u ++ c0 :: strip b.
Proof.
  intros H. unfold strip, replace_all.
  apply replace_loop_tail; [|lia]. intros v. by apply rx_match_tail.
Qed.

Lemma strip_nil : strip [] = [].
Proof. reflexivity. Qed.

Lemma strip_escape_free x t : escape_free x -> strip (x ++ t) = x ++ strip t.
Proof.
  induction 1 as [|c x [H1 H2] Hx IH]; [reflexivity|].
  unfold strip, replace_all in *. simpl. rewrite rx_match_other by done. by f_equal.
Qed.

Lemma replace_loop_elem (m : matcher) c :
  (forall s rest, m s = Some rest -> rest `suffix_of` s) ->
  forall fuel s, c ∈ replace_loop fuel m [] s -> c ∈ s.
Proof.
  intros Hm. induction fuel as [|fuel IH]; intros s; [done|].
  cbn [replace_loop]. destruct (m s) as [rest|] eqn:E.
  - apply Hm in E as [pre ->].
    destruct (length rest <? length (pre ++ rest))%nat.
    + simpl. intros H%IH. apply elem_of_app. by right.
    + destruct (pre ++ rest) as [|x t]; simpl; [done|].
      intros [->|H%IH]%elem_of_cons; [left|by right].
  - destruct s as [|x t]; [done|]. intros [->|H%IH]%elem_of_cons; [left|by right].
Qed.

Lemma strip_elem c s : c ∈ strip s -> c ∈ s.
Proof. apply replace_loop_elem. apply rx_match_suffix. Qed.

Lemma fields_app c a t : c ∉ a -> fields c (a ++ c :: t) = a :: fields c t.
Proof.
  induction a as [|x a IH]; intros Ha; simpl.
  - by rewrite N.eqb_refl.
  - apply not_elem_of_cons in Ha as [Hx Ha].
    destruct (N.eqb_spec x c); [done|]. by rewrite IH.
Qed.

Lemma fields_free c a : c ∉ a -> fields c a = [a].
Proof.
  induction a as [|x a IH]; intros Ha; simpl; [done|].
  apply not_elem_of_cons in Ha as [Hx Ha].
  destruct (N.eqb_spec x c); [done|]. by rewrite IH.
Qed.

Lemma fields_inv c : forall s f fs,
  fields c s = f :: fs ->
  (c ∉ f) /\ (match fs with
            | [] => s = f
            | _ :: _ => exists t, s = f ++ c :: t /\ fields c t = fs
            end).
Proof.
  induction s as [|x s IH]; intros f fs H; simpl in H.
  - inversion H; subst. split; [apply not_elem_of_nil|done].
  - destruct (N.eqb_spec x c) as [->|Hx].
    + inversion H; subst. split; [apply not_elem_of_nil|].
      destruct (fields c s) eqn:E; [by apply fields_nonempty in E|]. by exists s.
    + destruct (fields c s) as [|g gs] eqn:E; [by apply fields_nonempty in E|].
      simpl in H. inversion H; subst. destruct (IH g fs eq_refl) as [Hg Hs].
      split; [by apply not_elem_of_cons|].
      destruct fs as [|h hs]; [by subst|].
      destruct Hs as (t & -> & Ht). by exists t.
Qed.





Lemma chomp_inv f : chomp f = f \/ f = chomp f ++ [CR].
Proof.
  induction f as [|c f IH]; [by left|]. simpl. destruct f as [|d f].
  - destruct (N.eqb_spec c CR) as [->|]; [by right|by left].
  - destruct IH as [IH|IH]; [left|right]; simpl in *; congruence.
Qed.



Lemma strip_id x : escape_free x -> strip x = x.
Proof. intros H. rewrite <- (app_nil_r x) at 1. rewrite strip_escape_free by done. by rewrite strip_nil, app_nil_r. Qed.

Lemma rx_avoids_LF : avoids LF rx = true.
Proof. reflexivity. Qed.

Lemma strip_LF_free a : LF ∉ a -> LF ∉ strip a.
Proof. intros H H'. by apply strip_elem in H'. Qed.



(** ** The model on small inputs *)

Example strip_colour_codes :
  strip (ESC :: lit "[32;1m" ++ lit "92.5%" ++ ESC :: lit "[0m") = lit "92.5%".
Proof. reflexivity. Qed.

Example strip_ends_at_final_unit :
  strip (ESC :: lit "[12345m") = lit "m".
Proof. reflexivity. Qed.

Example split_keeps_empty_segments :
  split (string_matcher (lit ":")) (lit "a:b::c")
  = [lit "a"; lit "b"; lit ""; lit "c"].
Proof. reflexivity. Qed.

Example lines_of_mixed_endings :
  lines (lit "a" ++ [CR; LF] ++ lit "b" ++ [LF] ++ lit "c" ++ [CR])
  = [lit "a"; lit "b"; lit "c" ++ [CR]].
Proof. reflexivity. Qed.

Example parseFloat_summary :
  parseFloat (lit "92.5%") = S754_finite false 6509108836433920 (-46).
Proof. reflexivity. Qed.

Example parseFloat_rounds_to_nearest :
  parseFloat (lit "89.99999999999999999999") = of_nat_literal 90.
Proof. reflexivity. Qed.

Example parseFloat_exponent_needs_digits :
  parseFloat (lit "5.e") = parseFloat (lit "5").
Proof. reflexivity. Qed.

Example color_of_examples :
  color (lit "92.5%") = lit "green" /\ color (lit "85.0%") = lit "red" /\
  color (lit "90%") = lit "green" /\ color (lit "89.99%") = lit "red".
Proof. repeat split. Qed.

Example coverage_of_report : coverage (Some report) = Normal (lit "92.5%").
Proof. reflexivity. Qed.

(* ===================================================================== *)
(** * The coverage badge                                                 *)
(* ===================================================================== *)

Lemma coverage_refines text :
  coverage (Some text) = thrown_unless (percentage lines text).
Proof.
  unfold coverage, percentage. cbn [readFileSync mbind completion_bind].
  rewrite split_newline. fold (strip text). unfold at_index.
  destruct (lines (strip text) !! 2%nat) as [line|]; [|reflexivity].
  cbn [mbind option_bind completion_bind].
  change (lit ":") with [chr ":"]. change (lit "(") with [chr "("].
  rewrite split_char.
  destruct (fields (chr ":") line !! 1%nat) as [seg|]; [|reflexivity].
  cbn [mbind option_bind completion_bind].
  rewrite split_char.
  destruct (fields (chr "(") seg !! 0%nat) as [first|]; reflexivity.
Qed.

Lemma summary_line_escape_free : escape_free summary_line.
Proof.
  apply Forall_forall. intros c Hc. vm_compute in Hc.
  repeat (apply elem_of_cons in Hc as [->|Hc]; [split; discriminate|]).
  by apply elem_of_nil in Hc.
Qed.


(** ** Classification *)

Lemma SFcompare_antisym x y :
  SFcompare y x = CompOpp <$> SFcompare x y.
Proof.
  destruct x as [sx|sx| |sx mx ex], y as [sy|sy| |sy my ey];
    try reflexivity; try (destruct sx; reflexivity);
    try (destruct sy; reflexivity); try (destruct sx, sy; reflexivity).
  simpl. destruct sx, sy; try reflexivity; simpl;
    rewrite (Z.compare_antisym ey ex); destruct (ey ?= ex)%Z; simpl;
    try reflexivity; rewrite (Pos.compare_cont_antisym mx my Eq); simpl;
    try reflexivity.
Qed.

Lemma lt_ge x y :
  lt x y = negb (is_nan x) && negb (is_nan y) && negb (ge x y).
Proof.
  unfold lt, ge, SFltb, SFleb. rewrite (SFcompare_antisym x y).
  destruct x as [sx|sx| |sx mx ex], y as [sy|sy| |sy my ey]; try reflexivity;
    cbn [is_nan negb andb];
    match goal with |- context [SFcompare ?a ?b] =>
      destruct (SFcompare a b) as [[]|] eqn:E; try reflexivity;
      simpl in E; try discriminate E
    end.
  all: try (destruct sx; discriminate E).
  all: try (destruct sy; discriminate E).
  all: try (destruct sx, sy; discriminate E).
Qed.

(** C2 (as amended).  The color is green when the numeric prefix of the
    percentage string parses to a value of at least 90, and also when
    nothing parses; it is red otherwise, that is, when the prefix parses
    to a value below 90. *)
Theorem color_by_threshold (s : jsstring) :
  color s = if is_nan (parseFloat s) || ge (parseFloat s) (of_nat_literal 90)
            then lit "green" else lit "red".
Proof.
  unfold color. rewrite lt_ge.
  change (is_nan (of_nat_literal 90)) with false. cbn [negb]. rewrite andb_true_r.
  destruct (is_nan (parseFloat s)); [reflexivity|].
  destruct (ge (parseFloat s) (of_nat_literal 90)); reflexivity.
Qed.

(** C2 as stated fails on a token that starts with no number: its value
    is not at least 90, and its color is green. *)
Lemma color_unparsed_not_red :
  ge (parseFloat unparsed) (of_nat_literal 90) = false /\
  color unparsed = lit "green" /\
  color unparsed <>
    (if ge (parseFloat unparsed) (of_nat_literal 90)
     then lit "green" else lit "red").
Proof. repeat split; try reflexivity. discriminate. Qed.

(** C10.  A token whose leading characters parse to no number makes
    [parseFloat] return NaN; the comparison with 90 is then false, the
    red branch is not taken, and the color is green. *)
Theorem unparsed_percentage_is_green (s : jsstring) :
  parseFloat s = S754_nan ->
  lt (parseFloat s) (of_nat_literal 90) = false /\ color s = lit "green".
Proof. intros H. unfold color. rewrite H. split; reflexivity. Qed.

Lemma unparsed_percentage_is_green_witness :
  parseFloat unparsed = S754_nan /\
  lt (parseFloat unparsed) (of_nat_literal 90) = false /\
  color unparsed = lit "green".
Proof.
  split; [reflexivity|].
  apply (unparsed_percentage_is_green unparsed). reflexivity.
Defined.

(** ** The badge URL *)

Lemma substring_intro pre needle post :
  substring needle (pre ++ needle ++ post).
Proof. by exists pre, post. Qed.

(** C4.  The URL is the fixed template around the percentage string,
    in which every percent sign is written [%25] and every other code
    unit is kept, and the color; for the percentage 92.5% it contains
    [92.5%25]. *)
Theorem url_escapes_percent (coverage color : jsstring) :
  url coverage color =
    lit "https://img.shields.io/badge/coverage-" ++ escape_percent coverage
    ++ lit "-" ++ color ++ lit ".svg" /\
  substring (lit "92.5%25") (url (lit "92.5%") color).
Proof.
  split.
  - unfold url. by rewrite replace_percent.
  - unfold url. rewrite replace_percent.
    change (escape_percent (lit "92.5%")) with (lit "92.5%25").
    apply substring_intro.
Qed.

(** ** A report that cannot be read *)

Lemma fields_second_none c s : fields c s !! 1%nat = None <-> c ∉ s.
Proof.
  split.
  - destruct (fields c s) as [|f fs] eqn:E; [by apply fields_nonempty in E|].
    destruct fs as [|g gs]; [|done]. intros _.
    apply fields_inv in E as [Hf ->]. done.
  - intros H. by rewrite fields_free.
Qed.

Lemma fields_first_some c s : exists f, fields c s !! 0%nat = Some f.
Proof.
  destruct (fields c s) as [|f fs] eqn:E; [by apply fields_nonempty in E|].
  by exists f.
Qed.

Lemma percentage_none text :
  percentage lines text = None <->
  (length (lines (strip text)) < 3)%nat \/
  exists line, lines (strip text) !! 2%nat = Some line /\ chr ":" ∉ line.
Proof.
  unfold percentage.
  destruct (lines (strip text) !! 2%nat) as [line|] eqn:E; cbn [mbind option_bind].
  - destruct (fields (chr ":") line !! 1%nat) as [seg|] eqn:E1; cbn [mbind option_bind].
    + destruct (fields_first_some (chr "(") seg) as [f ->]. cbn [mbind option_bind].
      split; [done|]. intros [H|(l & [= <-] & Hl)].
      * apply lookup_lt_Some in E. lia.
      * apply fields_second_none in Hl. congruence.
    + split; [|done]. intros _. right. exists line. split; [done|].
      by apply fields_second_none.
  - split; [|done]. intros _. left. by apply lookup_ge_None in E; lia.
Qed.

Import Node E2E.

Lemma thrown_unless_throw {A} (o : option A) e :
  thrown_unless o = Throw e <-> o = None /\ e = TypeError.
Proof.
  destruct o; simpl; split.
  - discriminate.
  - intros [H _]. discriminate H.
  - intros [= <-]. done.
  - intros [_ ->]. done.
Qed.

Lemma end_handler_throw env e :
  coverage (report env) = Throw e ->
  end_handler env =
    Script ((if TRAVIS env then [SetTimeout 500] else [])
            ++ [ConsoleLog (lit "Generating badge...")]) (Uncaught e).
Proof.
  intros H. unfold end_handler. rewrite H. by destruct (TRAVIS env).
Qed.

(** C8 (as amended).  The chain throws exactly when the report file
    cannot be read, when the stripped text has fewer than three lines,
    or when its third line has no colon; a third line with a colon and
    no parenthesis throws nothing.  Nothing catches the exception: the
    [end] handler stops after its log line, before any request, and the
    process ends with the exception. *)
Theorem malformed_report_throws (file : option jsstring) :
  (coverage file = Throw SystemError <-> file = None) /\
  (coverage file = Throw TypeError <->
     exists text, file = Some text /\
       ((length (lines (strip text)) < 3)%nat \/
        exists line, lines (strip text) !! 2%nat = Some line /\
                     chr ":" ∉ line)) /\
  (forall env e, report env = file -> coverage file = Throw e ->
     end_handler env =
       Script ((if TRAVIS env then [SetTimeout 500] else [])
               ++ [ConsoleLog (lit "Generating badge...")]) (Uncaught e) /\
     state (run env [StreamEnd]) = Crashed e).
Proof.
  repeat split.
  - destruct file as [text|]; [|done]. rewrite coverage_refines.
    intros H. apply thrown_unless_throw in H as [_ H]. discriminate H.
  - by intros ->.
  - destruct file as [text|]; [|discriminate]. rewrite coverage_refines.
    intros [H _]%thrown_unless_throw. exists text. split; [done|].
    by apply percentage_none.
  - intros (text & -> & H). rewrite coverage_refines.
    apply thrown_unless_throw. split; [|done]. by apply percentage_none.
  - subst file. by apply end_handler_throw.
  - subst file. unfold run. cbn [foldl deliver start state pending listener_of handler].
    rewrite decide_True by (repeat constructor).
    cbn [state]. by rewrite (end_handler_throw env e).
Qed.

Lemma malformed_report_throws_witness :
  coverage (Some short_report) = Throw TypeError /\
  state (run (Environment true (Some short_report)) [StreamEnd])
    = Crashed TypeError.
Proof.
  split; [reflexivity|].
  apply (proj2 (proj2 (malformed_report_throws (Some short_report)))
               (Environment true (Some short_report)) TypeError);
    reflexivity.
Defined.

(** C8 as stated fails on a third line that has its colon and no
    parenthesis: the chain returns the text after the colon, and the
    handler goes on to request the badge. *)
Lemma report_without_parenthesis_is_read :
(chr "(" ∉ report_without_parenthesis) /\
  coverage (Some report_without_parenthesis) = Normal (lit "92.5%") /\
  state (run (Environment false (Some report_without_parenthesis))
             [StreamEnd]) = Running.
Proof.
  split; [|split; reflexivity].
  intros H. vm_compute in H.
  repeat (apply elem_of_cons in H as [H|H]; [discriminate H|]).
  by apply elem_of_nil in H.
Qed.

(* ===================================================================== *)
(** * Task [test:e2e]: the process and its exit codes                    *)
(* ===================================================================== *)

Lemma deliver_dead env p ev : state p <> Running -> deliver env p ev = p.
Proof. unfold deliver. by destruct (state p). Qed.

Lemma run_dead env evs : forall p,
  state p <> Running -> foldl (deliver env) p evs = p.
Proof.
  induction evs as [|ev evs IH]; intros p Hp; [done|].
  cbn [foldl]. rewrite deliver_dead by done. by apply IH.
Qed.

Lemma deliver_before_end env p ev :
  p = start \/ p = stopped -> ev <> StreamEnd ->
  deliver env p ev = start \/ deliver env p ev = stopped.
Proof.
  intros [->| ->] Hev.
  - destruct ev; [right|done|left|left|left]; reflexivity.
  - right. by apply deliver_dead.
Qed.

Lemma run_before_end env evs : forall p,
  p = start \/ p = stopped -> StreamEnd ∉ evs ->
  foldl (deliver env) p evs = start \/ foldl (deliver env) p evs = stopped.
Proof.
  induction evs as [|ev evs IH]; intros p Hp Hevs; [done|].
  apply not_elem_of_cons in Hevs as [Hev Hevs]. cbn [foldl].
  apply IH; [|done]. by apply deliver_before_end.
Qed.

Lemma remove_once_other (l x : listener) ls :
  x <> l -> x ∈ ls -> x ∈ remove_once l ls.
Proof.
  intros Hx. induction ls as [|y ls IH]; [done|]. cbn [remove_once].
  intros [E|H]%elem_of_cons.
  - subst y. destruct (decide (x = l)); [done|]. by left.
  - destruct (decide (y = l)); [done|]. right. by apply IH.
Qed.

Lemma deliver_keeps_error_listener env p ev :
  (state p = Running -> OnError ∈ pending p) ->
  state (deliver env p ev) = Running -> OnError ∈ pending (deliver env p ev).
Proof.
  unfold deliver. intros Hinv. destruct (state p) eqn:Hs; [|by rewrite Hs..].
  destruct (decide (listener_of ev ∈ pending p)) as [Hin|]; [|by rewrite Hs].
  cbn [state pending]. intros Hr. apply elem_of_app. left.
  apply remove_once_other; [|by apply Hinv].
  destruct ev; done.
Qed.

Lemma run_keeps_error_listener env evs : forall p,
  (state p = Running -> OnError ∈ pending p) ->
  state (foldl (deliver env) p evs) = Running ->
  OnError ∈ pending (foldl (deliver env) p evs).
Proof.
  induction evs as [|ev evs IH]; intros p Hinv; [done|].
  cbn [foldl]. apply IH. by apply deliver_keeps_error_listener.
Qed.

(** C5.  An error event of the end-to-end run that reaches the running
    process makes it exit with code 1, with no further action then or
    later; when no end event came before it, nothing of the badge
    generation has happened or will: the process has only printed its
    first line. *)
Theorem error_event_exits_one (env : environment)
    (before after : list event) :
  (state (run env before) = Running ->
   state (run env (before ++ StreamError :: after)) = Exited 1 /\
   trace (run env (before ++ StreamError :: after)) = trace (run env before))
  /\
  ((StreamEnd ∉ before) ->
   state (run env (before ++ StreamError :: after)) = Exited 1 /\
   trace (run env (before ++ StreamError :: after)) = trace start /\
   Forall (fun a => is_badge_action a = false)
          (trace (run env (before ++ StreamError :: after)))).
Proof.
  unfold run. rewrite foldl_app. cbn [foldl]. split.
  - intros Hr.
    assert (Hp : OnError ∈ pending (foldl (deliver env) start before)).
    { apply run_keeps_error_listener; [|done]. intros _. by left. }
    set (p := foldl (deliver env) start before) in *.
    assert (Hd : deliver env p StreamError
                 = Process (trace p) (Exited 1)
                     (remove_once OnError (pending p))).
    { unfold deliver. rewrite Hr. cbn [listener_of]. rewrite decide_True by done.
      cbn [handler error_handler process_exit actions result flat_map].
      by rewrite !app_nil_r. }
    rewrite Hd, run_dead by done. done.
  - intros Hb.
    assert (deliver env (foldl (deliver env) start before) StreamError
            = stopped) as ->.
    { destruct (run_before_end env before start (or_introl eq_refl) Hb)
        as [-> | ->]; reflexivity. }
    rewrite run_dead by done. repeat split. by repeat constructor.
Qed.

Lemma error_event_exits_one_witness :
  state (run ci_environment [TimerFired]) = Running /\
  (StreamEnd ∉ [TimerFired]) /\
  state (run ci_environment ([TimerFired] ++ StreamError :: [StreamEnd]))
    = Exited 1.
Proof.
  assert (H : StreamEnd ∉ [TimerFired]).
  { intros H. apply elem_of_cons in H as [H|H]; [discriminate H|].
    by apply elem_of_nil in H. }
  split; [reflexivity|]. split; [exact H|].
  destruct (error_event_exits_one ci_environment [TimerFired] [StreamEnd])
    as [_ Hno_end].
  exact (proj1 (Hno_end H)).
Defined.

(** C3.  When the value handed to the response callback is an error
    object, the callback logs it and calls [process.exit(0)]: a running
    process that awaits the response logs the error as its last action
    and exits with code 0. *)
Theorem response_error_exits_zero (env : environment) (p : process)
    (message : jsstring) :
  state p = Running -> OnResponse ∈ pending p ->
  response_handler (ErrorObject message)
    = Script [ConsoleError message] (Exit 0) /\
  trace (deliver env p (Response (ErrorObject message)))
    = trace p ++ [ConsoleError message] /\
  state (deliver env p (Response (ErrorObject message))) = Exited 0.
Proof.
  intros Hs Hp. split; [reflexivity|].
  unfold deliver. rewrite Hs. cbn [listener_of]. rewrite decide_True by done.
  split; reflexivity.
Qed.

Lemma response_error_exits_zero_witness :
  state (run ci_environment
             [StreamEnd; Response (ErrorObject (lit "ECONNRESET"))])
    = Exited 0.
Proof.
  refine (proj2 (proj2 (response_error_exits_zero ci_environment
            (run ci_environment [StreamEnd]) (lit "ECONNRESET") _ _))).
  - reflexivity.
  - vm_compute. repeat constructor.
Defined.

(* ===================================================================== *)
(** * Task [build]: a failure of the bundler                             *)
(* ===================================================================== *)

Module BundleFacts.
Import Bundle.

Lemma run_closed evs : forall got logged,
  foldl emit (closed got logged) evs = closed got (logged ++ errors evs).
Proof.
  induction evs as [|ev evs IH]; intros got logged; cbn [foldl errors].
  - by rewrite app_nil_r.
  - destruct ev as [chunk|err|]; cbn [emit closed thrown].
    + apply IH.
    + change (emit_error err (closed got logged))
        with (closed got (logged ++ [err])).
      rewrite IH, <- app_assoc. reflexivity.
    + apply IH.
Qed.

Lemma run_flowing_error before err later : forall got,
  foldl emit (flowing got) (before ++ Error err :: later)
  = closed (got ++ leading_data before)
           (errors (before ++ Error err :: later)).
Proof.
  induction before as [|ev before IH]; intros got.
  - cbn [app foldl leading_data errors]. rewrite app_nil_r.
    change (emit (flowing got) (Error err)) with (closed got [err]).
    apply run_closed.
  - destruct ev as [chunk|e|]; cbn [app foldl leading_data errors].
    + change (emit (flowing got) (Data chunk)) with (flowing (got ++ [chunk])).
      rewrite IH, <- app_assoc. reflexivity.
    + change (emit (flowing got) (Error e)) with (closed got [e]).
      rewrite app_nil_r. apply run_closed.
    + change (emit (flowing got) End) with (closed got []).
      rewrite app_nil_r. apply run_closed.
Qed.

Lemma errors_elem before err later :
  err ∈ errors (before ++ Error err :: later).
Proof.
  induction before as [|ev before IH]; cbn [app errors]; [by left|].
  destruct ev; [done|by right|done].
Qed.

Lemma run_thrown evs : forall s err,
  thrown s = Some err -> foldl emit s evs = s.
Proof.
  induction evs as [|ev evs IH]; intros s err H; [done|]. cbn [foldl].
  assert (emit s ev = s) as -> by (unfold emit; by rewrite H). by eapply IH.
Qed.

Lemma run_unlistened chunks err later : forall got,
  thrown (foldl emit (Stream [] true got false [] None)
                (map Data chunks ++ Error err :: later)) = Some err.
Proof.
  induction chunks as [|c chunks IH]; intros got; cbn [map app foldl].
  - erewrite run_thrown; reflexivity.
  - apply IH.
Qed.

End BundleFacts.

(** C6.  Whenever the bundler reports a failure, the failure is logged
    and the next stage is told that its input is over; no error is
    thrown out of the stream, and the next stage has received the
    chunks that came before the first failure or end, a truncated and
    possibly empty stream.  The same events on a stream without the
    handler throw the error. *)
Theorem bundle_failure_ends_stream (before later : list Bundle.event)
    (err : jsstring) :
  let s := Bundle.run (before ++ Bundle.Error err :: later) in
  Bundle.thrown s = None /\
  Bundle.log s = Bundle.errors (before ++ Bundle.Error err :: later) /\
  err ∈ Bundle.log s /\
  Bundle.ended s = true /\
  Bundle.received s = Bundle.leading_data before /\
  forall chunks,
    Bundle.thrown
      (foldl Bundle.emit (Bundle.pipe Bundle.bundle)
             (map Bundle.Data chunks ++ Bundle.Error err :: later))
    = Some err.
Proof.
  cbv zeta. unfold Bundle.run.
  change Bundle.pipeline with (Bundle.flowing []).
  rewrite BundleFacts.run_flowing_error. cbn [Bundle.closed Bundle.thrown
    Bundle.log Bundle.ended Bundle.received app].
  repeat split.
  - apply BundleFacts.errors_elem.
  - intros chunks. apply BundleFacts.run_unlistened.
Qed.

(* ===================================================================== *)
(** * Task [test:spec]: the completion callback                          *)
(* ===================================================================== *)

(** C7.  In the completion callback, a server handle held in [server]
    is stopped and only then is the task's completion signalled,
    whatever exit code the test run reports; with no handle the
    completion alone is signalled.  The whole task does the same after
    its log line and the start of the run. *)
Theorem server_stopped_before_done (exit_code : Z) (handle : N) :
  SpecRunner.on_complete (SpecRunner.Bound (SpecRunner.ServerHandle handle))
                         exit_code
    = Node.Script [Node.ServerStop handle; Node.TaskDone] (Node.Returned tt) /\
  SpecRunner.on_complete (SpecRunner.Bound SpecRunner.Undefined) exit_code
    = Node.Script [Node.TaskDone] (Node.Returned tt) /\
  Node.actions (SpecRunner.test_spec (SpecRunner.ServerHandle handle) exit_code)
    = [Node.ConsoleLog (lit "Starting unit tests..."); Node.KarmaStart;
       Node.ServerStop handle; Node.TaskDone].
Proof. repeat split. Qed.

(* ===================================================================== *)
(** * The task table                                                     *)
(* ===================================================================== *)

Local Open Scope string_scope.
Local Open Scope list_scope.

Module TaskFacts.
Import Tasks.

Lemma gulp_test_log (fails : string -> bool) :
  fails "lint" = false -> fails "test:spec" = false -> fails "test" = false ->
  log (gulp fails "test") =
    [Started "lint"; Finished "lint"; Started "test:spec";
     Finished "test:spec"; Started "test"; Started "test:e2e"]
    ++ (if fails "test:e2e" then [Failed "test:e2e"]
        else [Finished "test:e2e"; Finished "test"]).
Proof.
  intros H1 H2 H3. vm_compute. rewrite H1. vm_compute. rewrite H2.
  vm_compute. rewrite H3. vm_compute. destruct (fails "test:e2e"); reflexivity.
Qed.

End TaskFacts.

(** C9.  The task [test] declares [test:spec] as its only prerequisite
    and its function starts [test:e2e]; [test:e2e] is no prerequisite of
    [test], directly or through another task.  In a run of [test] the
    unit-test step has started and finished before [test:e2e] starts, so
    its report is there whether [test:e2e] then fails or not. *)
Theorem test_chains_e2e_after_spec :
  Tasks.gulpfile !! "test"
    = Some (Tasks.Task ["test:spec"] (Some (Tasks.Start "test:e2e"))) /\
  Tasks.prerequisites (size Tasks.gulpfile) Tasks.gulpfile "test"
    = ["lint"; "test:spec"] /\
  forall fails : string -> bool,
    fails "lint" = false -> fails "test:spec" = false ->
    fails "test" = false ->
    Tasks.log (Tasks.gulp fails "test") =
      [Tasks.Started "lint"; Tasks.Finished "lint";
       Tasks.Started "test:spec"; Tasks.Finished "test:spec";
       Tasks.Started "test"; Tasks.Started "test:e2e"]
      ++ (if fails "test:e2e" then [Tasks.Failed "test:e2e"]
          else [Tasks.Finished "test:e2e"; Tasks.Finished "test"]).
Proof.
  split; [reflexivity|]. split; [reflexivity|].
  apply TaskFacts.gulp_test_log.
Qed.

Lemma test_chains_e2e_after_spec_witness :
  Tasks.log (Tasks.gulp only_e2e_fails "test") =
    [Tasks.Started "lint"; Tasks.Finished "lint";
     Tasks.Started "test:spec"; Tasks.Finished "test:spec";
     Tasks.Started "test"; Tasks.Started "test:e2e";
     Tasks.Failed "test:e2e"].
Proof.
  exact (proj2 (proj2 test_chains_e2e_after_spec) only_e2e_fails
               eq_refl eq_refl eq_refl).
Defined.

(* ===================================================================== *)
(** * Further properties of the gulpfile                                 *)
(* ===================================================================== *)

#[local] Set Warnings "-clear-no-such-hyp".

(* ===================================================================== *)
(** * Task [clean] and the files of the build                            *)
(* ===================================================================== *)

Module CleanFacts.
Import Clean.

Lemma rimraf_allowed {A} path (cb : option string -> gset string -> A) files :
  rimraf (fun _ => false) path cb files = cb None (files ∖ {[path]}).
Proof. reflexivity. Qed.

Lemma rimraf_files {A} denied path (cb : option string -> gset string -> A)
    files :
  exists err files',
    rimraf denied path cb files = cb err files' /\
    (forall p, p ∈ files' <-> p ∈ files /\ (p <> path \/ denied p = true)) /\
    err = (if denied path && bool_decide (path ∈ files)
           then Some path else None).
Proof.
  unfold rimraf. destruct (denied path) eqn:Hd; cbn [andb].
  - destruct (bool_decide (path ∈ files)) eqn:Hin.
    + exists (Some path), files. split; [done|]. split; [|done].
      intros p. split; [|tauto]. intros Hp. split; [done|].
      destruct (decide (p = path)) as [->|]; [by right|by left].
    + exists None, (files ∖ {[path]}). split; [done|]. split; [|done].
      apply bool_decide_eq_false in Hin. intros p. split.
      * intros [Hp Hne%not_elem_of_singleton]%elem_of_difference. tauto.
      * intros [Hp _]. apply elem_of_difference. split; [done|].
        apply not_elem_of_singleton. by intros ->.
  - exists None, (files ∖ {[path]}). split; [done|]. split; [|done].
    intros p. split.
    + intros [Hp Hne%not_elem_of_singleton]%elem_of_difference. tauto.
    + intros [Hp [Hne|Hden]]; apply elem_of_difference; split; try done;
        apply not_elem_of_singleton; [done|]. intros ->. congruence.
Qed.

Lemma targets_elem p :
  p ∈ targets <->
  p = "gauge.js"%string \/ p = "gauge.min.js"%string \/
  p = "gauge.min.js.map"%string \/ p = "gauge.min.js.gz"%string.
Proof. unfold targets. set_solver. Qed.

Lemma clean_files denied files :
  (forall p, p ∈ (clean denied pair files).2 <->
             p ∈ files /\ (p ∉ targets \/ denied p = true)) /\
  (clean denied pair files).1 =
    (if denied "gauge.min.js.gz"%string
        && bool_decide ("gauge.min.js.gz"%string ∈ files)
     then Some "gauge.min.js.gz"%string else None).
Proof.
  unfold clean.
  destruct (rimraf_files denied "gauge.js" (fun _ =>
    rimraf denied "gauge.min.js" (fun _ =>
    rimraf denied "gauge.min.js.map" (fun _ =>
    rimraf denied "gauge.min.js.gz" pair))) files) as (e1 & f1 & -> & H1 & _).
  destruct (rimraf_files denied "gauge.min.js" (fun _ =>
    rimraf denied "gauge.min.js.map" (fun _ =>
    rimraf denied "gauge.min.js.gz" pair)) f1) as (e2 & f2 & -> & H2 & _).
  destruct (rimraf_files denied "gauge.min.js.map" (fun _ =>
    rimraf denied "gauge.min.js.gz" pair) f2) as (e3 & f3 & -> & H3 & _).
  destruct (rimraf_files denied "gauge.min.js.gz" pair f3)
    as (e4 & f4 & -> & H4 & ->).
  cbn [fst snd]. split.
  - intros p. rewrite H4, H3, H2, H1, targets_elem. 
    destruct (denied p); [tauto|]. intuition congruence.
  - assert (Hgz : "gauge.min.js.gz"%string ∈ f3 <-> "gauge.min.js.gz"%string ∈ files).
    { rewrite H3, H2, H1. naive_solver. }
    destruct (denied "gauge.min.js.gz"); [|done]. cbn [andb].
    by rewrite (bool_decide_ext _ _ Hgz).
Qed.

Lemma clean_allowed files :
  clean (fun _ => false) pair files = (None, files ∖ targets).
Proof.
  unfold clean. rewrite !rimraf_allowed. f_equal. unfold targets. set_solver.
Qed.

End CleanFacts.

(** X1.  With no removal refused, [clean] leaves exactly the files that
    are none of its four targets and hands [done] no error, whether the
    targets were there or not. *)
Theorem clean_removes_artifacts (files : gset string) :
  Clean.clean (fun _ => false) pair files = (None, files ∖ Clean.targets).
Proof. apply CleanFacts.clean_allowed. Qed.

(** X2.  Whatever removals are refused, every target whose removal is
    not refused is removed, every other file stays, and [done] is handed
    the error of the last removal only: a refusal of one of the first
    three is dropped. *)
Theorem clean_reports_last_error_only (denied : string -> bool)
    (files : gset string) :
  (forall p, p ∈ (Clean.clean denied pair files).2 <->
             p ∈ files /\ (p ∉ Clean.targets \/ denied p = true)) /\
  (Clean.clean denied pair files).1 =
    (if denied "gauge.min.js.gz"%string
        && bool_decide ("gauge.min.js.gz"%string ∈ files)
     then Some "gauge.min.js.gz"%string else None).
Proof. apply CleanFacts.clean_files. Qed.

(** X3.  Running [clean] a second time changes nothing. *)
Theorem clean_idempotent (denied : string -> bool) (files : gset string) :
  (Clean.clean denied pair (Clean.clean denied pair files).2).2
  = (Clean.clean denied pair files).2.
Proof.
  apply set_eq. intros p.
  rewrite !(proj1 (CleanFacts.clean_files denied _)). tauto.
Qed.

(** X4.  Task [build] writes the minified bundle and its map and
    nothing else, task [gzip] adds the compressed file when the
    minified bundle is there, and [clean] removes all of it: cleaning
    after a build and a compression leaves what cleaning alone
    leaves. *)
Theorem clean_undoes_build (minified : bool) (files : gset string) :
  Clean.build true files
    = files ∪ {[ "gauge.min.js"%string; "gauge.min.js.map"%string ]} /\
  Clean.gzip (Clean.build true files)
    = Clean.build true files ∪ {[ "gauge.min.js.gz"%string ]} /\
  (Clean.clean (fun _ => false) pair
     (Clean.gzip (Clean.build minified files))).2
  = (Clean.clean (fun _ => false) pair files).2.
Proof.
  assert (Hb : Clean.build true files
     = files ∪ {[ "gauge.min.js"%string; "gauge.min.js.map"%string ]}).
  { unfold Clean.build, Clean.dest. cbn. set_solver. }
  split; [exact Hb|]. split.
  - unfold Clean.gzip, Clean.src, Clean.dest.
    rewrite bool_decide_eq_true_2 by (rewrite Hb; set_solver).
    cbn. set_solver.
  - rewrite !CleanFacts.clean_allowed. cbn [snd].
    unfold Clean.gzip, Clean.src, Clean.dest, Clean.targets.
    destruct minified.
    + rewrite bool_decide_eq_true_2 by (rewrite Hb; set_solver).
      rewrite Hb. cbn. set_solver.
    + cbn [Clean.build]. destruct (bool_decide _); cbn; set_solver.
Qed.

(* ===================================================================== *)
(** * Task [build]: the bundle stream under any events                   *)
(* ===================================================================== *)

Lemma run_flowing_any evs : forall got,
  foldl Bundle.emit (Bundle.flowing got) evs
  = if (length (Bundle.leading_data evs) <? length evs)%nat
    then Bundle.closed (got ++ Bundle.leading_data evs) (Bundle.errors evs)
    else Bundle.flowing (got ++ Bundle.leading_data evs).
Proof.
  induction evs as [|ev evs IH]; intros got.
  - cbn. by rewrite app_nil_r.
  - destruct ev as [chunk|err|];
      cbn [foldl Bundle.leading_data Bundle.errors length].
    + change (Bundle.emit (Bundle.flowing got) (Bundle.Data chunk))
        with (Bundle.flowing (got ++ [chunk])).
      rewrite IH, <- app_assoc. reflexivity.
    + change (Bundle.emit (Bundle.flowing got) (Bundle.Error err))
        with (Bundle.closed got [err]).
      rewrite BundleFacts.run_closed, app_nil_r. reflexivity.
    + change (Bundle.emit (Bundle.flowing got) Bundle.End)
        with (Bundle.closed got []).
      rewrite BundleFacts.run_closed, app_nil_r. reflexivity.
Qed.

Lemma leading_data_length evs :
  (length (Bundle.leading_data evs) <= length evs)%nat.
Proof.
  induction evs as [|[c|e|] evs IH]; cbn [Bundle.leading_data length]; lia.
Qed.

Lemma errors_of_data evs :
  (length (Bundle.leading_data evs) <? length evs)%nat = false ->
  Bundle.errors evs = [].
Proof.
  induction evs as [|[c|e|] evs IH];
    cbn [Bundle.leading_data Bundle.errors length]; intros H.
  - reflexivity.
  - apply IH. apply Nat.ltb_ge in H. apply Nat.ltb_ge. lia.
  - discriminate H.
  - discriminate H.
Qed.

(** X5.  Whatever the bundler emits, the stream of task [build] throws
    nothing, logs every error in the order they come, and hands the
    next stage exactly the chunks that come before the first error or
    end event; the next stage is ended as soon as there is such an
    event, and chunks emitted later are dropped. *)
Theorem bundle_stream_any_events (evs : list Bundle.event) :
  Bundle.thrown (Bundle.run evs) = None /\
  Bundle.log (Bundle.run evs) = Bundle.errors evs /\
  Bundle.received (Bundle.run evs) = Bundle.leading_data evs /\
  Bundle.ended (Bundle.run evs)
    = (length (Bundle.leading_data evs) <? length evs)%nat.
Proof.
  unfold Bundle.run. change Bundle.pipeline with (Bundle.flowing []).
  rewrite run_flowing_any.
  destruct (length (Bundle.leading_data evs) <? length evs)%nat eqn:E;
    repeat split.
  symmetry. by apply errors_of_data.
Qed.

(* ===================================================================== *)
(** * Task [test:e2e]: every run of the process                          *)
(* ===================================================================== *)

Module E2EFacts.
Import Trace.

Lemma run_snoc env evs ev :
  run env (evs ++ [ev]) = deliver env (run env evs) ev.
Proof. unfold run. by rewrite foldl_app. Qed.

Lemma end_handler_normal env c :
  coverage (report env) = Normal c ->
  end_handler env =
    Script ((if TRAVIS env then [SetTimeout 500] else [])
            ++ [ConsoleLog (lit "Generating badge...");
                HttpGet (url c (color c))]) (Returned tt).
Proof.
  intros H. unfold end_handler. rewrite H. by destruct (TRAVIS env).
Qed.

Lemma end_handler_cases env :
  exists acts res,
    end_handler env =
      Script ((if TRAVIS env then [SetTimeout 500] else [])
              ++ ConsoleLog (lit "Generating badge...") :: acts) res /\
    ((exists c, coverage (report env) = Normal c /\
                acts = [HttpGet (url c (color c))] /\ res = Returned tt) \/
     (exists e, coverage (report env) = Throw e /\
                acts = [] /\ res = Uncaught e)).
Proof.
  destruct (coverage (report env)) as [c|e] eqn:E.
  - exists [HttpGet (url c (color c))], (Returned tt).
    split; [by apply end_handler_normal|]. left. by exists c.
  - exists [], (Uncaught e). split; [by apply end_handler_throw|].
    right. by exists e.
Qed.

Lemma handler_exit env ev code :
  result (handler env ev) = Exit code ->
  code = 0%Z \/ (code = 1%Z /\ ev = StreamError).
Proof.
  destruct ev as [| | |[m|b]|]; cbn.
  - intros [= <-]. by right.
  - destruct (end_handler_cases env)
      as (acts & res & -> & [(c & _ & _ & ->)|(e & _ & _ & ->)]); discriminate.
  - intros [= <-]. by left.
  - intros [= <-]. by left.
  - discriminate.
  - intros [= <-]. by left.
Qed.

Lemma deliver_cases env p ev :
  deliver env p ev = p \/
  (state p = Running /\ listener_of ev ∈ pending p /\
   deliver env p ev =
     Process (trace p ++ actions (handler env ev))
             (match result (handler env ev) with
              | Returned _ => Running
              | Exit c => Exited c
              | Uncaught e => Crashed e
              end)
             (remove_once (listener_of ev) (pending p)
              ++ flat_map installs (actions (handler env ev)))).
Proof.
  unfold deliver. destruct (state p); [|by left..].
  destruct (decide (listener_of ev ∈ pending p)); [|by left].
  right. done.
Qed.

End E2EFacts.

(** X6.  With a report that can be read, an end event, a response that
    is no error and the end of the write make the process request the
    badge of the extracted percentage and its color, pipe the response
    to [test-coverage.svg] and exit with code 0. *)
Theorem badge_written_on_success (env : environment) (c body : jsstring) :
  coverage (report env) = Normal c ->
  state (run env [StreamEnd; Response (IncomingMessage body); WriteFinished])
    = Exited 0 /\
  trace (run env [StreamEnd; Response (IncomingMessage body); WriteFinished])
    = trace start
      ++ (if TRAVIS env then [SetTimeout 500] else [])
      ++ [ConsoleLog (lit "Generating badge...");
          HttpGet (url c (color c));
          PipeToFile (lit "test-coverage.svg")].
Proof.
  intros H. unfold run. cbn [foldl].
  assert (H1 : deliver env start StreamEnd =
    Process (trace start ++ (if TRAVIS env then [SetTimeout 500] else [])
             ++ [ConsoleLog (lit "Generating badge...");
                 HttpGet (url c (color c))])
            Running
            ([OnError] ++ (if TRAVIS env then [OnTimer] else [])
             ++ [OnResponse])).
  { unfold deliver. cbn [state start pending listener_of handler].
    rewrite decide_True by (repeat constructor).
    rewrite (E2EFacts.end_handler_normal env c H). cbn [actions result].
    destruct (TRAVIS env); reflexivity. }
  rewrite H1. unfold deliver at 2. cbn [state pending listener_of].
  rewrite decide_True
    by (destruct (TRAVIS env); repeat constructor).
  cbn [handler response_handler]. 
  unfold deliver. cbn [state pending listener_of].
  rewrite decide_True.
  - cbn. split; [done|]. rewrite <- !app_assoc. by destruct (TRAVIS env).
  - apply elem_of_app. right. cbn. by left.
Qed.

Lemma badge_written_on_success_witness :
  coverage (report ci_environment) = Normal (lit "92.5%") /\
  state (run ci_environment
           [StreamEnd; Response (IncomingMessage (lit "<svg/>")); WriteFinished])
    = Exited 0.
Proof.
  split; [reflexivity|].
  apply (badge_written_on_success ci_environment (lit "92.5%") (lit "<svg/>")).
  reflexivity.
Defined.

Module ExitFacts.

Lemma remove_once_elem (l x : listener) ls :
  x ∈ remove_once l ls -> x ∈ ls.
Proof.
  induction ls as [|y ls IH]; [done|]. cbn [remove_once].
  destruct (decide (y = l)).
  - intros H. by right.
  - intros [->|H]%elem_of_cons; [by left|]. right. by apply IH.
Qed.

(** The listeners of the timer, of the response and of the write are
    attached by the end handler alone. *)
Lemma pending_after_end env evs l :
  l ∈ pending (run env evs) ->
  l = OnError \/ l = OnEnd \/ StreamEnd ∈ evs.
Proof.
  revert l. induction evs as [|ev evs IH] using rev_ind; intros l.
  - cbn. intros [->|[->|H]%elem_of_cons]%elem_of_cons; [by left|right; by left|].
    by apply elem_of_nil in H.
  - rewrite E2EFacts.run_snoc.
    destruct (E2EFacts.deliver_cases env (run env evs) ev)
      as [->|(Hr & Hin & ->)].
    + intros H. destruct (IH l H) as [?|[?|?]]; [by left|right; by left|].
      right. right. apply elem_of_app. by left.
    + cbn [pending]. intros [H|H]%elem_of_app.
      * apply remove_once_elem in H.
        destruct (IH l H) as [?|[?|?]]; [by left|right; by left|].
        right. right. apply elem_of_app. by left.
      * right. right. apply elem_of_app.
        destruct ev as [| | |[m|b]|].
        -- cbn in H. by apply elem_of_nil in H.
        -- right. by left.
        -- cbn in H. by apply elem_of_nil in H.
        -- left. by destruct (IH _ Hin) as [?|[?|?]].
        -- left. by destruct (IH _ Hin) as [?|[?|?]].
        -- cbn in H. by apply elem_of_nil in H.
Qed.

(** The handlers that call [process.exit], and the code each passes. *)
Lemma handler_exit_event env ev code :
  result (handler env ev) = Exit code ->
  (code = 1%Z /\ ev = StreamError) \/
  (code = 0%Z /\
   (ev = TimerFired \/ (exists m, ev = Response (ErrorObject m))
    \/ ev = WriteFinished)).
Proof.
  destruct ev as [| | |[m|b]|]; cbn.
  - intros [= <-]. by left.
  - destruct (E2EFacts.end_handler_cases env)
      as (acts & res & -> & [(c & _ & _ & ->)|(e & _ & _ & ->)]); discriminate.
  - intros [= <-]. right. split; [done|]. by left.
  - intros [= <-]. right. split; [done|]. right. left. by exists m.
  - discriminate.
  - intros [= <-]. right. split; [done|]. by do 2 right.
Qed.

End ExitFacts.

(** X7.  However the events of the run, of the timer, of the response
    and of the write come, a process that [process.exit] has ended got
    code 1 or code 0: code 1 only after an error event of the
    end-to-end run; code 0 only after the end event of the run and
    then only when the timer has fired, an error object has come as
    the response, or the write has finished. *)
Theorem exit_codes_of_e2e (env : environment) (evs : list event) (code : Z) :
  state (run env evs) = Exited code ->
  (code = 1%Z /\ StreamError ∈ evs) \/
  (code = 0%Z /\ StreamEnd ∈ evs /\
   (TimerFired ∈ evs \/ (exists m, Response (ErrorObject m) ∈ evs)
    \/ WriteFinished ∈ evs)).
Proof.
  induction evs as [|ev evs IH] using rev_ind; [discriminate|].
  rewrite E2EFacts.run_snoc.
  destruct (E2EFacts.deliver_cases env (run env evs) ev)
    as [->|(Hr & Hin & ->)].
  - intros H. destruct (IH H) as [[-> H1]|(-> & H0 & H1)].
    + left. split; [done|]. apply elem_of_app. by left.
    + right. split; [done|]. split; [apply elem_of_app; by left|].
      destruct H1 as [H1|[[m H1]|H1]].
      * left. apply elem_of_app. by left.
      * right. left. exists m. apply elem_of_app. by left.
      * do 2 right. apply elem_of_app. by left.
  - cbn [state]. intros H.
    destruct (result (handler env ev)) as [|c|] eqn:E; try discriminate H.
    injection H as ->.
    assert (Hlast : ev ∈ evs ++ [ev]) by (apply elem_of_app; right; by left).
    destruct (ExitFacts.handler_exit_event env ev code E)
      as [[-> ->]|[-> Hev]]; [by left|].
    right. split; [done|].
    assert (Hend : StreamEnd ∈ evs).
    { destruct (ExitFacts.pending_after_end env evs _ Hin) as [H|[H|H]];
        [| |done];
        destruct Hev as [->|[[m ->]| ->]]; discriminate H. }
    split; [apply elem_of_app; by left|].
    destruct Hev as [->|[[m ->]| ->]];
      [by left|right; left; by exists m|by do 2 right].
Qed.

Lemma exit_codes_of_e2e_witness :
  state (run ci_environment [StreamError]) = Exited 1 /\
  ((1 = 1 /\ StreamError ∈ [StreamError]) \/
   (1 = 0 /\ StreamEnd ∈ [StreamError] /\
    (TimerFired ∈ [StreamError]
     \/ (exists m, Response (ErrorObject m) ∈ [StreamError])
     \/ WriteFinished ∈ [StreamError])))%Z.
Proof.
  split; [reflexivity|].
  exact (exit_codes_of_e2e ci_environment [StreamError] 1%Z eq_refl).
Defined.

Module TimerFacts.
Import Trace.

Lemma deliver_end_normal env c :
  coverage (report env) = Normal c ->
  deliver env start StreamEnd =
    Process (trace start ++ (if TRAVIS env then [SetTimeout 500] else [])
             ++ [ConsoleLog (lit "Generating badge...");
                 HttpGet (url c (color c))])
            Running
            ([OnError] ++ (if TRAVIS env then [OnTimer] else [])
             ++ [OnResponse]).
Proof.
  intros H. unfold deliver. cbn [state start pending listener_of handler].
  rewrite decide_True by (repeat constructor).
  rewrite (E2EFacts.end_handler_normal env c H). cbn [actions result].
  destruct (TRAVIS env); reflexivity.
Qed.

Lemma remove_once_subset (l x : listener) ls :
  x ∈ remove_once l ls -> x ∈ ls.
Proof.
  induction ls as [|y ls IH]; [done|]. cbn [remove_once].
  destruct (decide (y = l)).
  - intros H. by right.
  - intros [->|H]%elem_of_cons; [by left|]. right. by apply IH.
Qed.

Lemma installs_no_timer env ev :
  TRAVIS env = false ->
  OnTimer ∉ flat_map installs (actions (handler env ev)).
Proof.
  intros Ht. destruct ev as [| | |[m|b]|]; cbn; try apply not_elem_of_nil.
  - destruct (E2EFacts.end_handler_cases env)
      as (acts & res & -> & [(c & _ & -> & _)|(e & _ & -> & _)]);
      rewrite Ht; cbn; [|apply not_elem_of_nil].
    intros [H|H]%elem_of_cons; [discriminate H|]. by apply elem_of_nil in H.
  - intros [H|H]%elem_of_cons; [discriminate H|]. by apply elem_of_nil in H.
Qed.

Lemma no_timer_pending env evs :
  TRAVIS env = false -> OnTimer ∉ pending (run env evs).
Proof.
  intros Ht. induction evs as [|ev evs IH] using rev_ind.
  - cbn. intros [H|[H|H]%elem_of_cons]%elem_of_cons; try discriminate H.
    by apply elem_of_nil in H.
  - rewrite E2EFacts.run_snoc.
    destruct (E2EFacts.deliver_cases env (run env evs) ev)
      as [->|(Hr & Hin & ->)]; [done|].
    cbn [pending]. intros [H|H]%elem_of_app.
    + by apply remove_once_subset in H.
    + by apply (installs_no_timer env ev Ht).
Qed.

End TimerFacts.

(** X8.  On the CI service, when the timer set by the end handler
    fires before the response has come, the process exits with code 0
    and the badge file is never written, whatever comes later. *)
Theorem timer_ends_process_before_response (env : environment)
    (c : jsstring) (later : list event) :
  TRAVIS env = true -> coverage (report env) = Normal c ->
  state (run env (StreamEnd :: TimerFired :: later)) = Exited 0 /\
  Trace.writes (trace (run env (StreamEnd :: TimerFired :: later))) = [].
Proof.
  intros Ht Hc. unfold run. cbn [foldl].
  rewrite (TimerFacts.deliver_end_normal env c Hc), Ht.
  set (p := Process _ Running _).
  assert (Hp : deliver env p TimerFired
               = Process (trace p) (Exited 0)
                         (remove_once OnTimer (pending p))).
  { unfold deliver. cbn [state p pending listener_of].
    rewrite decide_True by (repeat constructor).
    cbn [handler timer_handler process_exit actions result flat_map].
    by rewrite !app_nil_r. }
  rewrite Hp, run_dead by done. split; reflexivity.
Qed.

Lemma timer_ends_process_before_response_witness :
  TRAVIS ci_environment = true /\
  coverage (report ci_environment) = Normal (lit "92.5%") /\
  state (run ci_environment
           [StreamEnd; TimerFired; Response (IncomingMessage (lit "<svg/>"))])
    = Exited 0.
Proof.
  split; [reflexivity|]. split; [reflexivity|].
  apply (timer_ends_process_before_response ci_environment (lit "92.5%")
           [Response (IncomingMessage (lit "<svg/>"))]); reflexivity.
Defined.

(** X9.  Off the CI service no timer is ever set: a timer event changes
    nothing, wherever it comes among the events. *)
Theorem no_timer_without_ci (env : environment) (before after : list event) :
  TRAVIS env = false ->
  run env (before ++ TimerFired :: after) = run env (before ++ after).
Proof.
  intros Ht. unfold run. rewrite !foldl_app. cbn [foldl]. f_equal.
  fold (run env before). unfold deliver.
  destruct (state (run env before)); try reflexivity.
  cbn [listener_of]. rewrite decide_False; [reflexivity|].
  by apply TimerFacts.no_timer_pending.
Qed.

Lemma no_timer_without_ci_witness :
  TRAVIS (Environment false (Some Samples.report)) = false /\
  run (Environment false (Some Samples.report)) ([StreamEnd] ++ TimerFired :: [])
  = run (Environment false (Some Samples.report)) ([StreamEnd] ++ []).
Proof.
  split; [reflexivity|].
  by apply (no_timer_without_ci (Environment false (Some Samples.report))).
Defined.

Module CountFacts.
Import Trace.

Lemma registered_app l a b :
  registered l (a ++ b) = (registered l a + registered l b)%nat.
Proof. unfold registered. by rewrite filter_app, length_app. Qed.

Lemma registered_cons l x ls :
  registered l (x :: ls)
  = ((if decide (x = l) then 1 else 0) + registered l ls)%nat.
Proof.
  unfold registered. rewrite filter_cons. by destruct (decide (x = l)).
Qed.

Lemma registered_remove_same l ls :
  l ∈ ls -> registered l ls = S (registered l (remove_once l ls)).
Proof.
  induction ls as [|x ls IH]; intros H; [by apply elem_of_nil in H|].
  cbn [remove_once]. rewrite registered_cons.
  destruct (decide (x = l)) as [->|Hx]; [done|].
  rewrite registered_cons, decide_False by done.
  apply elem_of_cons in H as [->|H]; [done|]. by rewrite IH.
Qed.

Lemma registered_remove_other l x ls :
  x <> l -> registered x (remove_once l ls) = registered x ls.
Proof.
  intros Hx. induction ls as [|y ls IH]; [done|]. cbn [remove_once].
  destruct (decide (y = l)) as [->|Hy].
  - rewrite registered_cons, decide_False by done. done.
  - by rewrite !registered_cons, IH.
Qed.

Lemma requests_app a b : requests (a ++ b) = requests a ++ requests b.
Proof. apply flat_map_app. Qed.

Lemma writes_app a b : writes (a ++ b) = writes a ++ writes b.
Proof. apply flat_map_app. Qed.

Lemma handler_counts env ev :
  let acts := actions (handler env ev) in
  registered OnEnd (flat_map installs acts) = 0%nat /\
  registered OnResponse (flat_map installs acts) = length (requests acts) /\
  (length (requests acts)
     <= if decide (listener_of ev = OnEnd) then 1 else 0)%nat /\
  (length (writes acts)
     <= if decide (listener_of ev = OnResponse) then 1 else 0)%nat.
Proof.
  destruct ev as [| | |[m|b]|]; cbv zeta; cbn [handler];
    try (unfold registered, requests, writes; cbn;
         repeat (case_decide; try discriminate; try done);
         cbn; repeat split; lia).
  destruct (E2EFacts.end_handler_cases env)
    as (acts & res & -> & [(c & _ & -> & _)|(e & _ & -> & _)]);
    try generalize (url c (color c)); try intros u;
    destruct (TRAVIS env); cbn [actions app flat_map installs listener_of];
    unfold registered, requests, writes; cbn;
    repeat (case_decide; try discriminate; try done); cbn; repeat split; lia.
Qed.

Lemma deliver_counted env p ev : counted p -> counted (deliver env p ev).
Proof.
  intros [H1 H2].
  destruct (E2EFacts.deliver_cases env p ev) as [->|(Hr & Hin & ->)]; [done|].
  destruct (handler_counts env ev) as (I1 & I2 & I3 & I4).
  unfold counted. cbn [pending trace].
  rewrite !registered_app, requests_app, writes_app, !length_app, I1, I2.
  pose proof (registered_remove_same _ _ Hin) as Hs.
  destruct (decide (listener_of ev = OnEnd)) as [E|E].
  - rewrite E in *. rewrite decide_False in I4 by done.
    rewrite (registered_remove_other OnEnd OnResponse) by done. lia.
  - rewrite (registered_remove_other (listener_of ev) OnEnd) by done.
    destruct (decide (listener_of ev = OnResponse)) as [E'|E'].
    + rewrite E' in *. lia.
    + rewrite (registered_remove_other (listener_of ev) OnResponse) by done.
      lia.
Qed.

Lemma run_counted env evs : counted (run env evs).
Proof.
  induction evs as [|ev evs IH] using rev_ind.
  - split; vm_compute; lia.
  - rewrite E2EFacts.run_snoc. by apply deliver_counted.
Qed.

End CountFacts.

(** X10.  However the events come, the process requests a badge at most
    once, and pipes a response to a file at most once and only after
    it has made the request. *)
Theorem at_most_one_request (env : environment) (evs : list event) :
  (length (Trace.requests (trace (run env evs))) <= 1)%nat /\
  (length (Trace.writes (trace (run env evs)))
     <= length (Trace.requests (trace (run env evs))))%nat.
Proof.
  destruct (CountFacts.run_counted env evs) as [H1 H2]. split; lia.
Qed.

(** X11.  Whatever is requested is the badge URL of the percentage
    taken from the report and of its color, after an end event;
    whatever is written goes to [test-coverage.svg] and comes from a
    response that is no error object. *)
Theorem requests_and_writes_of_e2e (env : environment) (evs : list event) :
  (forall u, u ∈ Trace.requests (trace (run env evs)) ->
     StreamEnd ∈ evs /\
     exists c, coverage (report env) = Normal c /\ u = url c (color c)) /\
  (forall path, path ∈ Trace.writes (trace (run env evs)) ->
     path = lit "test-coverage.svg" /\
     exists body, Response (IncomingMessage body) ∈ evs).
Proof.
  induction evs as [|ev evs [IH1 IH2]] using rev_ind.
  - split; intros x H; by apply elem_of_nil in H.
  - rewrite E2EFacts.run_snoc.
    assert (K1 : forall u, u ∈ Trace.requests (trace (run env evs)) ->
      StreamEnd ∈ evs ++ [ev] /\
      exists c, coverage (report env) = Normal c /\ u = url c (color c)).
    { intros u H. destruct (IH1 u H) as [H0 H1]. split; [|done].
      apply elem_of_app. by left. }
    assert (K2 : forall path, path ∈ Trace.writes (trace (run env evs)) ->
      path = lit "test-coverage.svg" /\
      exists body, Response (IncomingMessage body) ∈ evs ++ [ev]).
    { intros path H. destruct (IH2 path H) as [H0 [body H1]]. split; [done|].
      exists body. apply elem_of_app. by left. }
    destruct (E2EFacts.deliver_cases env (run env evs) ev)
      as [->|(Hr & Hin & ->)]; [by split|].
    cbn [trace]. rewrite CountFacts.requests_app, CountFacts.writes_app.
    split.
    + intros u [H|H]%elem_of_app; [by apply K1|].
      destruct ev as [| | |[m|b]|]; cbn in H; try by apply elem_of_nil in H.
      split; [apply elem_of_app; right; by left|].
      destruct (E2EFacts.end_handler_cases env)
        as (acts & res & Heq & [(c & Hc & -> & _)|(e & _ & -> & _)]);
        rewrite Heq in H; destruct (TRAVIS env); cbn in H;
        try (by apply elem_of_nil in H);
        apply list_elem_of_singleton in H; by exists c.
    + intros path [H|H]%elem_of_app; [by apply K2|].
      destruct ev as [| | |[m|b]|]; cbn in H; try by apply elem_of_nil in H.
      * destruct (E2EFacts.end_handler_cases env)
          as (acts & res & Heq & [(c & Hc & -> & _)|(e & _ & -> & _)]);
          rewrite Heq in H; destruct (TRAVIS env); cbn in H;
          by apply elem_of_nil in H.
      * apply list_elem_of_singleton in H. split; [done|].
        exists b. apply elem_of_app. right. by left.
Qed.

Lemma requests_and_writes_of_e2e_witness :
  lit "test-coverage.svg"
    ∈ Trace.writes (trace (run ci_environment
         [StreamEnd; Response (IncomingMessage (lit "<svg/>"))])) /\
  exists body,
    Response (IncomingMessage body)
      ∈ [StreamEnd; Response (IncomingMessage (lit "<svg/>"))].
Proof.
  assert (H : lit "test-coverage.svg"
    ∈ Trace.writes (trace (run ci_environment
         [StreamEnd; Response (IncomingMessage (lit "<svg/>"))]))).
  { vm_compute. by left. }
  split; [exact H|].
  exact (proj2 (proj2 (requests_and_writes_of_e2e ci_environment
           [StreamEnd; Response (IncomingMessage (lit "<svg/>"))]) _ H)).
Defined.

(* ===================================================================== *)
(** * The report text: what stripping keeps                              *)
(* ===================================================================== *)

Module StripFacts.

Lemma replace_loop_sublist (m : matcher) :
  (forall s rest, m s = Some rest -> rest `suffix_of` s) ->
  forall fuel s, replace_loop fuel m [] s `sublist_of` s.
Proof.
  intros Hm. induction fuel as [|fuel IH]; intros s; [done|].
  cbn [replace_loop]. destruct (m s) as [rest|] eqn:E.
  - apply Hm in E as [pre ->].
    destruct (length rest <? length (pre ++ rest))%nat.
    + cbn [app]. by apply sublist_inserts_l.
    + destruct (pre ++ rest) as [|x t]; cbn [app]; [done|].
      by apply sublist_skip.
  - destruct s as [|x t]; [done|]. by apply sublist_skip.
Qed.

Lemma fields_length_strip : forall fs s,
  fields LF s = fs -> length (fields LF (strip s)) = length fs.
Proof.
  induction fs as [|f fs IH]; intros s H; [by apply fields_nonempty in H|].
  apply fields_inv in H as [Hf Hs]. destruct fs as [|g gs].
  - subst s. rewrite fields_free; [done|]. by apply strip_LF_free.
  - destruct Hs as (t & -> & Ht).
    rewrite strip_tail by apply rx_avoids_LF.
    rewrite fields_app by (by apply strip_LF_free).
    cbn [length]. f_equal. by apply IH.
Qed.

Lemma lines_length s : length (lines s) = length (fields LF s).
Proof.
  unfold lines. rewrite length_app, length_map. cbn [length].
  destruct (fields LF s) as [|f fs] eqn:E; [by apply fields_nonempty in E|].
  clear E. revert f. induction fs as [|g gs IH]; intros f; [done|].
  specialize (IH g). cbn [List.removelast length] in *. lia.
Qed.

End StripFacts.

(** X12.  Stripping only removes: what is left is the text with some
    code units taken out, in the same order, and never longer. *)
Theorem strip_only_removes (s : jsstring) :
  strip s `sublist_of` s /\ (length (strip s) <= length s)%nat.
Proof.
  assert (H : strip s `sublist_of` s).
  { apply StripFacts.replace_loop_sublist. apply rx_match_suffix. }
  split; [exact H|]. by apply sublist_length.
Qed.

(** X13.  A text that holds neither U+001B nor U+009B is left as it is. *)
Theorem strip_keeps_plain_text (s : jsstring) :
  escape_free s -> strip s = s.
Proof. apply strip_id. Qed.

Lemma strip_keeps_plain_text_witness :
  escape_free summary_line /\ strip summary_line = summary_line.
Proof.
  split; [apply summary_line_escape_free|].
  apply (strip_keeps_plain_text summary_line), summary_line_escape_free.
Defined.

(** X14.  No escape sequence runs over a line feed: stripping works on
    each side of a line feed apart, and the stripped text has as many
    lines as the text. *)
Theorem strip_keeps_lines (a b s : jsstring) :
  strip (a ++ LF :: b) = strip a ++ LF :: strip b /\
  length (lines (strip s)) = length (lines s).
Proof.
  split; [apply strip_tail, rx_avoids_LF|].
  rewrite !StripFacts.lines_length. by apply StripFacts.fields_length_strip.
Qed.

(* ===================================================================== *)
(** * Control sequences are removed whole                                *)
(* ===================================================================== *)

Module EscapeFacts.
Import Escape.

Lemma digit_class c : in_class [range "0" "9"] c = is_digit c.
Proof. unfold is_digit. cbn. by rewrite orb_false_r. Qed.

Lemma digit_not_mark c : is_digit c = true -> in_class marks c = false.
Proof.
  unfold is_digit. intros [H1 H2]%andb_true_iff.
  apply N.leb_le in H1. apply N.leb_le in H2.
  change marks with [(91, 91); (40, 40); (41, 41); (35, 35); (59, 59); (63, 63)].
  rewrite !in_class_cons, in_class_nil.
  repeat match goal with
  | |- context [N.leb ?a c] => destruct (N.leb_spec a c)
  | |- context [N.leb c ?a] => destruct (N.leb_spec c a)
  end; cbn; try reflexivity; lia.
Qed.

Lemma upto_greedy : forall d n rest (k : cont) e,
  Forall (fun c => is_digit c = true) d -> (length d <= n)%nat ->
  (forall c r, rest = c :: r -> is_digit c = false) ->
  k rest = Some e ->
  rmatch (Upto n digit) (d ++ rest) k = Some e.
Proof.
  induction d as [|c d IH]; intros n rest k e Hd Hn Hrest Hk.
  - destruct n as [|n]; [exact Hk|]. cbn [app Upto Opt rmatch].
    unfold digit at 1. cbn [rmatch].
    destruct rest as [|x r]; [exact Hk|].
    rewrite digit_class, (Hrest x r eq_refl). exact Hk.
  - destruct n as [|n]; [cbn in Hn; lia|].
    apply Forall_cons in Hd as [Hc Hd]. cbn [app Upto Opt rmatch].
    unfold digit at 1. cbn [rmatch]. rewrite digit_class, Hc.
    rewrite (IH n rest k e); try done. cbn in Hn. lia.
Qed.

Lemma rest_not_digit groups final t :
  is_digit final = false ->
  forall c r, groups_text groups ++ final :: t = c :: r -> is_digit c = false.
Proof.
  intros Hf c r. destruct groups as [|g gs]; cbn.
  - by intros [= <- _].
  - by intros [= <- _].
Qed.

Lemma star_groups : forall groups fuel final t (k : cont) e,
  Forall (digit_run 4) groups ->
  final <> chr ";" -> is_digit final = false ->
  (length (groups_text groups ++ final :: t) <= fuel)%nat ->
  k (final :: t) = Some e ->
  star_loop (rmatch group) k fuel (groups_text groups ++ final :: t) = Some e.
Proof.
  induction groups as [|g gs IH]; intros fuel final t k e Hg Hs Hd Hf Hk.
  - cbn [groups_text flat_map app] in *.
    destruct fuel as [|fuel]; [exact Hk|]. cbn [star_loop].
    unfold group at 1. cbn [rmatch]. unfold one. rewrite in_class_single.
    destruct (N.eqb_spec final (chr ";")); [done|]. exact Hk.
  - apply Forall_cons in Hg as [[Hg1 Hg2] Hgs].
    cbn [groups_text flat_map] in *. fold (groups_text gs) in *.
    rewrite <- app_assoc in *. cbn [app] in *.
    destruct fuel as [|fuel]; [cbn in Hf; lia|]. cbn [star_loop].
    unfold group at 1. cbn [rmatch]. unfold one at 1.
    rewrite in_class_single, N.eqb_refl.
    change (Rep 0 4 digit) with (Upto 4 digit).
    rewrite (upto_greedy g 4 (groups_text gs ++ final :: t) _ e); try done.
    + by apply rest_not_digit.
    + cbn [length] in *. rewrite !length_app in *.
      destruct (Nat.ltb_spec (length (groups_text gs) + length (final :: t))
                  (S (length g + (length (groups_text gs)
                                  + length (final :: t))))); [|lia].
      apply IH; try done. rewrite length_app. lia.
Qed.

Lemma final_not_semicolon final :
  in_class finals final = true -> final <> chr ";".
Proof. intros H ->. discriminate H. Qed.

Lemma control_sequence_match first groups final t :
  first <> [] -> digit_run 4 first -> Forall (digit_run 4) groups ->
  in_class finals final = true -> is_digit final = false ->
  regex_matcher rx (control_sequence first groups final ++ t) = Some t.
Proof.
  intros Hne [Hd Hn] Hg Hf Hfd.
  destruct first as [|c0 first]; [done|].
  apply Forall_cons in Hd as [Hc0 Hd]. cbn [length] in Hn.
  unfold control_sequence, regex_matcher, rx. cbn [app rmatch].
  change (in_class [(ESC, ESC); (CSI, CSI)] ESC) with true. cbv iota.
  rewrite <- !app_assoc. cbn [app length star_loop rmatch].
  change (in_class [one "["; one "("; one ")"; one "#"; one ";"; one "?"]
            (chr "[")) with true. cbv iota.
  rewrite (proj2 (Nat.ltb_lt _ _) (Nat.lt_succ_diag_r _)). cbn [star_loop rmatch].
  change [one "["; one "("; one ")"; one "#"; one ";"; one "?"] with marks.
  rewrite (digit_not_mark c0 Hc0).
  unfold Opt. cbn [rmatch Rep]. unfold digit at 1. cbn [rmatch].
  rewrite digit_class, Hc0.
  assert (Hk : (fun s : jsstring => rmatch (Class finals) s Some) (final :: t)
               = Some t) by (cbn [rmatch]; by rewrite Hf).
  rewrite (upto_greedy first 3 (groups_text groups ++ final :: t) _ t);
    try done.
  - lia.
  - by apply rest_not_digit.
  - exact (star_groups groups _ final t
             (fun s : jsstring => rmatch (Class finals) s Some) t
             Hg (final_not_semicolon _ Hf) Hfd (Nat.le_refl _) Hk).
Qed.

End EscapeFacts.

(** X15.  A control sequence made of ESC, an opening bracket, a first
    parameter of one to four digits, any number of further parameters
    of up to four digits after a semicolon each, and a final code unit
    of the pattern's last class that is no digit is removed whole: the
    text after it is stripped as if the sequence were not there. *)
Theorem control_sequence_removed (first : jsstring) (groups : list jsstring)
    (final : N) (t : jsstring) :
  first <> [] -> Escape.digit_run 4 first ->
  Forall (Escape.digit_run 4) groups ->
  in_class Escape.finals final = true -> is_digit final = false ->
  strip (Escape.control_sequence first groups final ++ t) = strip t.
Proof.
  intros H1 H2 H3 H4 H5. unfold strip, replace_all.
  pose proof (EscapeFacts.control_sequence_match first groups final t
                H1 H2 H3 H4 H5) as Hm.
  set (s := Escape.control_sequence first groups final ++ t) in *.
  assert (Hlen : (length t < length s)%nat).
  { unfold s, Escape.control_sequence. cbn [app length].
    rewrite !length_app. lia. }
  remember (replace_loop (S (length t)) (regex_matcher rx) [] t) as R eqn:HR.
  cbn [replace_loop]. rewrite Hm, (proj2 (Nat.ltb_lt _ _) Hlen).
  cbn [app]. subst R. apply replace_loop_fuel; lia.
Qed.

Lemma control_sequence_removed_witness :
  strip (Escape.control_sequence (lit "32") [lit "1"] (chr "m")
         ++ lit "92.5%") = strip (lit "92.5%").
Proof.
  apply (control_sequence_removed (lit "32") [lit "1"] (chr "m")
           (lit "92.5%")).
  - discriminate.
  - split; [by repeat constructor|cbn; lia].
  - by repeat constructor.
  - reflexivity.
  - reflexivity.
Defined.

(* ===================================================================== *)
(** * The percentage token and the badge URL                             *)
(* ===================================================================== *)

Module TokenFacts.

Lemma cons_head_elem (x : N) ls f :
  f ∈ cons_head x ls ->
  (exists g, f = x :: g /\ (ls = [] /\ g = [] \/ g ∈ ls)) \/ f ∈ ls.
Proof.
  destruct ls as [|l r]; cbn.
  - intros ->%list_elem_of_singleton. left. exists []. by split; [|left].
  - intros [->|H]%elem_of_cons.
    + left. exists l. split; [done|]. right. by left.
    + right. by right.
Qed.

Lemma fields_elem c : forall s f,
  f ∈ fields c s -> (c ∉ f) /\ (forall x, x ∈ f -> x ∈ s).
Proof.
  induction s as [|y s IH]; intros f; cbn [fields].
  - intros ->%list_elem_of_singleton. split; [apply not_elem_of_nil|done].
  - destruct (N.eqb_spec y c) as [->|Hy].
    + intros [->|H]%elem_of_cons.
      * split; [apply not_elem_of_nil|]. intros x Hx. by apply elem_of_nil in Hx.
      * destruct (IH f H) as [H1 H2]. split; [done|].
        intros x Hx. right. by apply H2.
    + intros [(g & -> & [[E _]|Hg])|H]%cons_head_elem.
      * by apply fields_nonempty in E.
      * destruct (IH g Hg) as [H1 H2]. split.
        -- apply not_elem_of_cons. split; [congruence|done].
        -- intros x [->|Hx]%elem_of_cons; [by left|]. right. by apply H2.
      * destruct (IH f H) as [H1 H2]. split; [done|].
        intros x Hx. right. by apply H2.
Qed.

Lemma chomp_elem f x : x ∈ chomp f -> x ∈ f.
Proof.
  destruct (chomp_inv f) as [->|E]; [done|].
  intros H. rewrite E. apply elem_of_app. by left.
Qed.

Lemma lines_elem s l :
  l ∈ lines s -> (LF ∉ l) /\ (forall x, x ∈ l -> x ∈ s).
Proof.
  unfold lines. intros [H|H]%elem_of_app.
  - apply list_elem_of_fmap in H as (f & -> & Hf).
    assert (Hin : f ∈ fields LF s).
    { destruct (fields LF s) as [|g gs] eqn:E; [done|].
      rewrite (app_removelast_last [] (l:=g :: gs)) by done.
      apply elem_of_app. by left. }
    destruct (fields_elem LF s f Hin) as [H1 H2]. split.
    + intros Hc. by apply chomp_elem in Hc.
    + intros x Hx. by apply H2, chomp_elem.
  - apply list_elem_of_singleton in H as ->.
    apply fields_elem.
    destruct (fields LF s) as [|g gs] eqn:E; [by apply fields_nonempty in E|].
    rewrite (app_removelast_last [] (l:=g :: gs)) at 2 by done.
    apply elem_of_app. right. by left.
Qed.

Lemma trim_start_head : forall s c r,
  trim_start s = c :: r -> is_white_space c = false.
Proof.
  induction s as [|x s IH]; intros c r; cbn [trim_start]; [done|].
  destruct (is_white_space x) eqn:E; [apply IH|]. by intros [= <- _].
Qed.

Lemma trim_start_suffix s : trim_start s `suffix_of` s.
Proof.
  induction s as [|x s IH]; cbn [trim_start]; [done|].
  destruct (is_white_space x); [by apply suffix_cons_r|done].
Qed.

Lemma trim_ends s :
  (forall c r, trim s = c :: r -> is_white_space c = false) /\
  (forall c r, trim s = r ++ [c] -> is_white_space c = false) /\
  (forall x, x ∈ trim s -> x ∈ s).
Proof.
  unfold trim.
  destruct (trim_start_suffix (rev (trim_start s))) as [pre Hpre].
  set (u := trim_start s) in *. set (w := trim_start (rev u)) in *.
  assert (Hu : u = rev w ++ rev pre).
  { rewrite <- rev_app_distr, <- Hpre. by rewrite rev_involutive. }
  repeat split.
  - intros c r Hw. apply (trim_start_head s c (r ++ rev pre)).
    fold u. by rewrite Hu, Hw.
  - intros c r Hw. apply (trim_start_head (rev u) c (rev r)). fold w.
    rewrite <- (rev_involutive w), Hw, rev_app_distr. done.
  - intros x Hx. destruct (trim_start_suffix s) as [pre' Hs]. fold u in Hs.
    rewrite Hs, Hu. apply elem_of_app. right. apply elem_of_app. by left.
Qed.

End TokenFacts.

(** X16.  Whatever percentage token the chain returns has no white
    space at either end and holds no colon, no opening parenthesis and
    no line feed. *)
Theorem percentage_token_shape (file : option jsstring) (p : jsstring) :
  coverage file = Normal p ->
  (forall c r, p = c :: r -> is_white_space c = false) /\
  (forall c r, p = r ++ [c] -> is_white_space c = false) /\
  (chr ":" ∉ p) /\ (chr "(" ∉ p) /\ (LF ∉ p).
Proof.
  destruct file as [text|]; [|discriminate]. rewrite coverage_refines.
  unfold percentage.
  destruct (lines (strip text) !! 2%nat) as [line|] eqn:E1; [|discriminate].
  cbn [mbind option_bind].
  destruct (fields (chr ":") line !! 1%nat) as [seg|] eqn:E2; [|discriminate].
  cbn [mbind option_bind].
  destruct (fields (chr "(") seg !! 0%nat) as [first|] eqn:E3; [|discriminate].
  cbn. intros [= <-].
  apply list_elem_of_lookup_2 in E1, E2, E3.
  destruct (TokenFacts.lines_elem _ _ E1) as [L1 _].
  destruct (TokenFacts.fields_elem _ _ _ E2) as [S1 S2].
  destruct (TokenFacts.fields_elem _ _ _ E3) as [F1 F2].
  destruct (TokenFacts.trim_ends first) as (T1 & T2 & T3).
  split; [exact T1|]. split; [exact T2|]. repeat split.
  - intros H. apply S1, F2, T3, H.
  - intros H. apply F1, T3, H.
  - intros H. apply L1, S2, F2, T3, H.
Qed.

Lemma percentage_token_shape_witness :
  coverage (Some Samples.report) = Normal (lit "92.5%") /\
  (chr ":" ∉ lit "92.5%").
Proof.
  split; [reflexivity|].
  exact (proj1 (proj2 (proj2 (percentage_token_shape (Some Samples.report)
                                (lit "92.5%") eq_refl)))).
Defined.

Lemma escape_percent_injective : forall s1 s2,
  escape_percent s1 = escape_percent s2 -> s1 = s2.
Proof.
  unfold escape_percent.
  induction s1 as [|x s1 IH]; intros [|y s2]; cbn [flat_map].
  - done.
  - destruct (N.eqb_spec y (chr "%")); discriminate.
  - destruct (N.eqb_spec x (chr "%")); discriminate.
  - destruct (N.eqb_spec x (chr "%")) as [->|Hx],
             (N.eqb_spec y (chr "%")) as [->|Hy]; cbn [app lit].
    + intros H. f_equal. apply IH. by simplify_list_eq.
    + intros [= E _]. by rewrite <- E in Hy.
    + intros [= E _]. by rewrite E in Hx.
    + intros [= -> H]. f_equal. by apply IH.
Qed.

(** X17.  Two percentage strings with one badge URL, for one color,
    are the same string: the escaping of the percent sign loses
    nothing. *)
Theorem url_determines_percentage (c1 c2 color : jsstring) :
  url c1 color = url c2 color -> c1 = c2.
Proof.
  unfold url. rewrite !replace_percent. intros H.
  apply app_inv_head in H. apply app_inv_tail in H.
  by apply escape_percent_injective.
Qed.

Lemma url_determines_percentage_witness :
  url (lit "92.5%") (lit "green") = url (lit "92.5%") (lit "green") /\
  lit "92.5%" = lit "92.5%".
Proof.
  split; [reflexivity|].
  by apply (url_determines_percentage (lit "92.5%") (lit "92.5%") (lit "green")).
Defined.

(* ===================================================================== *)
(** * The task table                                                     *)
(* ===================================================================== *)

(** X18.  The task table is well formed: no name is registered twice,
    so no registration replaces another; every prerequisite a task
    names is a registered task; and no task is among its own
    prerequisites, direct or not. *)
Theorem task_table_well_formed :
  NoDup (map (fun r => r.1.1) Tasks.registrations) /\
  size Tasks.gulpfile = length Tasks.registrations /\
  map_Forall (fun name t =>
      Forall (fun d => is_Some (Tasks.gulpfile !! d)) (Tasks.dep t) /\
      name ∉ Tasks.prerequisites (size Tasks.gulpfile) Tasks.gulpfile name)
    Tasks.gulpfile.
Proof.
  split; [|split]; compute_done.
Qed.

(* ===================================================================== *)
(** * The threshold on the percentages a report prints                   *)
(* ===================================================================== *)

Module PercentFacts.
Import Percent.

Lemma digit_in_ten d : (d < 10)%N -> d ∈ ten.
Proof.
  intros H. unfold ten.
  assert (d = 0 \/ d = 1 \/ d = 2 \/ d = 3 \/ d = 4 \/ d = 5 \/ d = 6
          \/ d = 7 \/ d = 8 \/ d = 9)%N as Hd by lia.
  repeat (destruct Hd as [->|Hd]; [by repeat constructor|]).
  subst d. by repeat constructor.
Qed.

Lemma digit_lists_elem : forall n ds,
  Forall (fun d => (d < 10)%N) ds -> length ds = n -> ds ∈ digit_lists n.
Proof.
  induction n as [|n IH]; intros ds Hd Hn.
  - destruct ds; [by left|discriminate Hn].
  - destruct ds as [|d ds]; [discriminate Hn|].
    apply Forall_cons in Hd as [H1 H2]. cbn [digit_lists].
    apply list_elem_of_In, in_flat_map. exists d. split.
    + by apply list_elem_of_In, digit_in_ten.
    + apply in_map, list_elem_of_In, IH; [done|]. by injection Hn.
Qed.

Lemma classified_all :
  forallb (fun whole => forallb (classified whole)
             (digit_lists 0 ++ digit_lists 1 ++ digit_lists 2))
          (digit_lists 1 ++ digit_lists 2) = true.
Proof. vm_compute. reflexivity. Qed.

End PercentFacts.

(** X20.  For every percentage the report can print with one or two
    digits before the decimal point and at most two after it, followed
    by the percent sign, the color is red when the whole part is below
    90 and green from 90 on. *)
Theorem color_of_printed_percentage (whole frac : list N) :
  Forall (fun d => (d < 10)%N) whole -> Forall (fun d => (d < 10)%N) frac ->
  (1 <= length whole <= 2)%nat -> (length frac <= 2)%nat ->
  color (Percent.token whole frac)
  = if N.ltb (Percent.value whole) 90 then lit "red" else lit "green".
Proof.
  intros Hw Hf Hlw Hlf.
  pose proof PercentFacts.classified_all as H.
  rewrite forallb_forall in H.
  assert (Hin : In whole (Percent.digit_lists 1 ++ Percent.digit_lists 2)).
  { apply in_or_app.
    assert (length whole = 1 \/ length whole = 2)%nat as [E|E] by lia;
      [left|right]; by apply list_elem_of_In, PercentFacts.digit_lists_elem. }
  specialize (H whole Hin). rewrite forallb_forall in H.
  assert (Hin' : In frac (Percent.digit_lists 0 ++ Percent.digit_lists 1
                          ++ Percent.digit_lists 2)).
  { apply in_or_app.
    assert (length frac = 0 \/ length frac = 1 \/ length frac = 2)%nat
      as [E|[E|E]] by lia;
      [left|right; apply in_or_app; left|right; apply in_or_app; right];
      by apply list_elem_of_In, PercentFacts.digit_lists_elem. }
  specialize (H frac Hin'). by apply bool_decide_eq_true_1 in H.
Qed.

Lemma color_of_printed_percentage_witness :
  color (Percent.token [8; 9]%N [9; 9]%N) = lit "red" /\
  color (Percent.token [9; 0]%N []) = lit "green".
Proof.
  split.
  - apply (color_of_printed_percentage [8; 9]%N [9; 9]%N);
      [by repeat constructor|by repeat constructor|cbn; lia|cbn; lia].
  - apply (color_of_printed_percentage [9; 0]%N []);
      [by repeat constructor|by repeat constructor|cbn; lia|cbn; lia].
Defined.

(** X21.  A token that starts with a code unit that is no white space,
    no digit, no sign, no decimal point and not the capital I of
    [Infinity] parses to NaN, and its color is green: the report's
    [Unknown%] gives a green badge. *)
Theorem color_green_without_number (c : N) (r : jsstring) :
  is_white_space c = false -> is_digit c = false ->
  c <> chr "-" -> c <> chr "+" -> c <> chr "." -> c <> chr "I" ->
  parseFloat (c :: r) = S754_nan /\ color (c :: r) = lit "green".
Proof.
  intros Hw Hd Hm Hp Hdot HI.
  assert (H : parseFloat (c :: r) = S754_nan).
  { unfold parseFloat. cbn [trim_start]. rewrite Hw.
    destruct (N.eqb_spec c (chr "-")); [done|].
    destruct (N.eqb_spec c (chr "+")); [done|].
    cbn [lit list_ascii_of_string map strip_prefix].
    rewrite (N.eqb_sym _ c).
    destruct (N.eqb_spec c (N_of_ascii "I")); [done|].
    unfold unsigned_decimal. cbn [digits]. rewrite Hd.
    destruct (N.eqb_spec c (chr ".")); [done|]. reflexivity. }
  split; [exact H|]. unfold color. by rewrite H.
Qed.

Lemma color_green_without_number_witness :
  color (lit "Unknown%") = lit "green".
Proof.
  apply (color_green_without_number (chr "U") (lit "nknown%"));
    (reflexivity || discriminate).
Defined.

(* ===================================================================== *)
(** * The extractor on text with escape sequences                        *)
(* ===================================================================== *)

Module MarkupFacts.
Import Markup.


Lemma class_single_true a c : in_class [(a, a)] c = true -> c = a.
Proof. rewrite in_class_single. by intros ?%N.eqb_eq. Qed.










End MarkupFacts.


